(** * Fleet lifecycle controller: nuke workflow and deployment monitor

    A shallow embedding of the region scan-and-terminate workflow of
    [spot_deployer/commands/nuke.py] and of the command gateway, log-line
    parser, duration parser and monitoring loops of [amauo/manager.py],
    with the properties the specification states about them.

    Conventions.
    - A Python [str] is a [string]; one [ascii] is one character (code points
      below 256).
    - A Python [dict] is a [gmap] when only lookups matter, and an association
      list when the insertion order is observable.
    - An external call (cloud API, subprocess, clock) is a parameter of the
      function that makes it: an oracle that gives the call's outcome.
    - A reading of [time.time()] is a rational number of seconds.
    - A call that can raise returns a [result]; what the code only prints
      or renders is left out, unless a property is about it. *)

From Stdlib Require Import ZArith QArith Lqa String Ascii List Permutation Bool.
From stdpp Require Import gmap strings list fin_maps pretty.

Local Open Scope string_scope.
Local Open Scope list_scope.

(** ** Python values shared by the two modules *)

(** A raised [Exception]: the error code of a botocore [ClientError], when it
    is one, and the text [str(e)] gives. *)
Record py_exn := PyExn {
  exn_code : option string;
  exn_str : string
}.

Inductive result (A : Type) : Type :=
| Ok (a : A)
| Raise (e : py_exn).
Arguments Ok {A} a.
Arguments Raise {A} e.

(** [needle in hay] on strings. *)
Fixpoint str_in (needle hay : string) : bool :=
  if String.prefix needle hay then true
  else match hay with
       | EmptyString => false
       | String _ rest => str_in needle rest
       end.

(** ** The nuke command, [spot_deployer/commands/nuke.py] *)
Module Nuke.

(** One instance of a [describe_instances] response: [InstanceId] and
    [State.Name] are read with [[]], the others with [.get]. *)
Record ec2_instance := Ec2Instance {
  InstanceId : string;
  StateName : string;
  InstanceType : option string;
  PublicIpAddress : option string;
  LaunchTime : option string;
  Tags : option (list (string * string))
}.

(** The dict [find_spot_instances_in_region] builds for an instance. *)
Record instance := Instance {
  id : string;
  region : string;
  state : string;
  type : string;
  public_ip : string;
  launch_time : string;
  tags : gmap string string
}.

(** [{k: v for (k, v) in kvs}]: a later binding of a key replaces an earlier. *)
Definition dict_of {V} (kvs : list (string * V)) : gmap string V :=
  foldl (fun m kv => <[kv.1 := kv.2]> m) ∅ kvs.

Definition AWS_REGIONS : list string :=
  [ "us-east-1"; "us-east-2"; "us-west-1"; "us-west-2";
    "eu-west-1"; "eu-west-2"; "eu-west-3"; "eu-central-1"; "eu-north-1";
    "ap-northeast-1"; "ap-northeast-2"; "ap-northeast-3";
    "ap-southeast-1"; "ap-southeast-2"; "ap-south-1";
    "ca-central-1"; "sa-east-1"; "me-south-1"; "af-south-1"; "ap-east-1" ].

Definition instance_of (region : string) (i : ec2_instance) : instance :=
  {| id := InstanceId i;
     region := region;
     state := StateName i;
     type := default "unknown" (InstanceType i);
     public_ip := default "N/A" (PublicIpAddress i);
     launch_time := default "unknown" (LaunchTime i);
     tags := dict_of (default [] (Tags i)) |}.

(** [describe_instances] of a region: the reservations, each a list of
    instances, or an exception. *)
Definition describe_api := string -> result (list (list ec2_instance)).

Definition find_spot_instances_in_region
    (describe : describe_api) (region : string) : result (list instance) :=
  match describe region with
  | Ok reservations =>
      Ok (concat (map (map (instance_of region)) reservations))
  | Raise e =>
      match exn_code e with
      | Some code =>
          if String.eqb code "UnauthorizedOperation" then Ok [] else Raise e
      | None => Raise e
      end
  end.

(** [terminate_instances] of a region on an id list: the pairs
    (InstanceId, CurrentState.Name) of [TerminatingInstances], or an
    exception. *)
Definition terminate_api := string -> list string -> result (list (string * string)).

Definition terminate_instances_in_region
    (terminate : terminate_api) (region : string) (instance_ids : list string)
  : gmap string string :=
  match instance_ids with
  | [] => ∅
  | _ =>
      match terminate region instance_ids with
      | Ok terminating => dict_of terminating
      | Raise e =>
          dict_of (map (fun inst_id => (inst_id, "ERROR: " +:+ exn_str e)) instance_ids)
      end
  end.

(** *** Phase 1 of [cmd_nuke]: the scan loop *)

(** The line the loop prints for a region. *)
Inductive scan_line :=
| ScanFound (region : string) (n : nat)
| ScanNone (region : string)
| ScanError (region : string) (msg : string).

Definition scan_line_region (l : scan_line) : string :=
  match l with
  | ScanFound r _ | ScanNone r | ScanError r _ => r
  end.

Record scan_state := ScanState {
  all_instances : list instance;
  region_errors : list (string * string);
  scan_console : list scan_line
}.

(** The body of [for future in as_completed(future_to_region)], for the
    future of [region]; [worker region] is what [future.result()] gives. *)
Definition scan_step (worker : string -> result (list instance))
    (st : scan_state) (region : string) : scan_state :=
  match worker region with
  | Ok instances =>
      match instances with
      | [] =>
          {| all_instances := all_instances st;
             region_errors := region_errors st;
             scan_console := scan_console st ++ [ScanNone region] |}
      | _ =>
          {| all_instances := all_instances st ++ instances;
             region_errors := region_errors st;
             scan_console := scan_console st ++ [ScanFound region (length instances)] |}
      end
  | Raise e =>
      {| all_instances := all_instances st;
         region_errors := region_errors st ++ [(region, exn_str e)];
         scan_console := scan_console st ++ [ScanError region (exn_str e)] |}
  end.

(** The scan loop over the futures in the order [completed] in which
    [as_completed] yields them: one future per submitted region. *)
Definition scan_regions (worker : string -> result (list instance))
    (completed : list string) : scan_state :=
  foldl (scan_step worker) (ScanState [] [] []) completed.

(** What the future of one region contributes to each of the three
    accumulators of the loop. *)
Definition region_line (worker : string -> result (list instance))
    (region : string) : scan_line :=
  match worker region with
  | Ok [] => ScanNone region
  | Ok instances => ScanFound region (length instances)
  | Raise e => ScanError region (exn_str e)
  end.

Definition region_value (worker : string -> result (list instance))
    (region : string) : list instance :=
  match worker region with
  | Ok instances => instances
  | Raise _ => []
  end.

Definition region_error (worker : string -> result (list instance))
    (region : string) : option (string * string) :=
  match worker region with
  | Ok _ => None
  | Raise e => Some (region, exn_str e)
  end.

(** *** Phase 2 of [cmd_nuke]: grouping, termination, reconciliation *)

(** [termination_groups]: an insertion-ordered dict from region to id list. *)
Fixpoint group_add (region inst_id : string) (groups : list (string * list string))
  : list (string * list string) :=
  match groups with
  | [] => [(region, [inst_id])]
  | (r, ids) :: rest =>
      if String.eqb r region then (r, ids ++ [inst_id]) :: rest
      else (r, ids) :: group_add region inst_id rest
  end.

Definition termination_groups (all : list instance) : list (string * list string) :=
  foldl (fun groups inst => group_add (region inst) (id inst) groups) [] all.

(** [termination_groups.get(r, [])] *)
Fixpoint groups_get (groups : list (string * list string)) (r : string) : list string :=
  match groups with
  | [] => []
  | (r', ids) :: rest => if String.eqb r' r then ids else groups_get rest r
  end.

Record term_counts := TermCounts {
  terminated_count : nat;
  failed_count : nat
}.

(** [sum(1 for status in results.values() if "ERROR" not in status)] *)
Definition count_success (results : gmap string string) : nat :=
  length (filter (fun kv => str_in "ERROR" kv.2 = false) (map_to_list results)).

(** The body of the termination loop for the future of [region]. *)
Definition terminate_step (terminate : terminate_api)
    (groups : list (string * list string))
    (c : term_counts) (region : string) : term_counts :=
  let results := terminate_instances_in_region terminate region (groups_get groups region) in
  let success := count_success results in
  let failed := size results - success in
  {| terminated_count := terminated_count c + success;
     failed_count := failed_count c + failed |}.

Definition terminate_regions (terminate : terminate_api)
    (groups : list (string * list string)) (completed : list string) : term_counts :=
  foldl (terminate_step terminate groups) (TermCounts 0 0) completed.

(** The ids of all the submitted batches:
    [[i for r in future_to_region.values() for i in termination_groups.get(r, [])]] *)
Definition batch_ids (groups : list (string * list string)) : list string :=
  concat (map (groups_get groups) (map fst groups)).

(** The set comprehension named [terminated_ids]. *)
Definition terminated_ids (all : list instance) (groups : list (string * list string))
  : gset string :=
  list_to_set
    (map id (filter (fun inst => id inst ∉ batch_ids groups) all)).

Section Reconcile.
(** The persisted instance list belongs to the state manager, which is not
    part of these sources: an entry is any value with an ["id"]. *)
Context {entry : Type} (entry_id : entry -> string).

Definition remaining_instances (all : list instance)
    (groups : list (string * list string)) (current_instances : list entry)
  : list entry :=
  filter (fun e => entry_id e ∉ terminated_ids all groups) current_instances.

(** What [cmd_nuke] saves once the termination loop is over: [None] when it
    does not touch the persisted list. *)
Definition reconcile (c : term_counts) (all : list instance)
    (current_instances : list entry) : option (list entry) :=
  if decide (0 < terminated_count c)
  then Some (remaining_instances all (termination_groups all) current_instances)
  else None.

(** [cmd_nuke] from the second confirmation on, with the instances the scan
    found: the counts it reports and the list it saves. *)
Definition nuke_terminate_phase (terminate : terminate_api)
    (all : list instance) (completed : list string)
    (current_instances : list entry) : term_counts * option (list entry) :=
  let groups := termination_groups all in
  let c := terminate_regions terminate groups completed in
  (c, reconcile c all current_instances).

(** What one run of the command meets: the answer of [check_aws_auth], the
    two lines typed at the prompts, the cloud, the orders in which the
    futures of the two pools complete, and the persisted list. *)
Record nuke_env := NukeEnv {
  check_aws_auth : bool;
  confirmation : string;
  final_confirm : string;
  describe : describe_api;
  scan_completed : list string;
  terminate : terminate_api;
  terminate_completed : list string;
  load_instances : list entry
}.

(** How the command ends; [Nuked] carries what it saved, if it saved. *)
Inductive nuke_outcome :=
| NotAuthenticated
| Aborted
| NothingFound (scan : scan_state)
| Nuked (scan : scan_state) (counts : term_counts) (saved : option (list entry)).

Definition cmd_nuke (env : nuke_env) (force : bool) : nuke_outcome :=
  if negb (check_aws_auth env) then NotAuthenticated
  else if negb force && negb (String.eqb (confirmation env) "DESTROY ALL SPOTS")
  then Aborted
  else
    let scan :=
      scan_regions (find_spot_instances_in_region (describe env)) (scan_completed env) in
    match all_instances scan with
    | [] => NothingFound scan
    | _ =>
        if negb force && negb (String.eqb (final_confirm env) "YES") then Aborted
        else
          let '(counts, saved) :=
            nuke_terminate_phase (terminate env) (all_instances scan)
              (terminate_completed env) (load_instances env) in
          Nuked scan counts saved
    end.
End Reconcile.

(** *** Termination outcomes as the data model words them *)

(** The status values the data model lists for a termination outcome:
    ["terminated"], or a string that starts with ["error:"]. *)
Definition status_as_specified (status : string) : bool :=
  String.eqb status "terminated" || String.prefix "error:" status.

(** One outcome per requested id, each with a listed status. *)
Definition outcomes_as_specified (instance_ids : list string)
    (results : gmap string string) : Prop :=
  dom results = list_to_set instance_ids /\
  forall i status, results !! i = Some status -> status_as_specified status = true.

(** *** Scenarios: concrete cloud behaviours *)

(** The API rejects every batch. *)
Definition api_rejects_batch : terminate_api :=
  fun _ _ => Raise (PyExn (Some "RequestLimitExceeded") "Request limit exceeded.").

(** The API accepts the batch and reports each instance as shutting down,
    the state EC2 gives for an instance it has started to terminate. *)
Definition api_shutting_down : terminate_api :=
  fun _ ids => Ok (map (fun i => (i, "shutting-down")) ids).

Definition sample_instance (inst_id region : string) : instance :=
  {| id := inst_id; region := region; state := "running"; type := "t3.medium";
     public_ip := "N/A"; launch_time := "unknown"; tags := ∅ |}.

Definition sample_ec2 (inst_id : string) : ec2_instance :=
  {| InstanceId := inst_id; StateName := "running"; InstanceType := None;
     PublicIpAddress := None; LaunchTime := None; Tags := None |}.

(** Region ["us-east-1"] has two spot instances in one reservation, region
    ["me-south-1"] denies the call, every other region is empty. *)
Definition describe_two_regions : describe_api :=
  fun region =>
    if String.eqb region "us-east-1"
    then Ok [[sample_ec2 "i-0a1"; sample_ec2 "i-0b2"]]
    else if String.eqb region "me-south-1"
    then Raise (PyExn (Some "UnauthorizedOperation") "You are not authorized to perform this operation.")
    else Ok [].

(** The same cloud, but the call of region ["ap-south-1"] is throttled. *)
Definition describe_broken_region : describe_api :=
  fun region =>
    if String.eqb region "ap-south-1"
    then Raise (PyExn (Some "RequestLimitExceeded") "Request limit exceeded.")
    else describe_two_regions region.

(** One spot instance runs, in ["us-east-1"]. *)
Definition describe_one_instance : describe_api :=
  fun region =>
    if String.eqb region "us-east-1" then Ok [[sample_ec2 "i-0a1"]] else Ok [].

(** A forced run: the scan finds the instance, EC2 accepts its batch, and
    the persisted list holds that instance and one of another region. *)
Definition env_one_instance : nuke_env (entry := instance) :=
  {| check_aws_auth := true;
     confirmation := "";
     final_confirm := "";
     describe := describe_one_instance;
     scan_completed := AWS_REGIONS;
     terminate := api_shutting_down;
     terminate_completed := ["us-east-1"];
     load_instances :=
       [instance_of "us-east-1" (sample_ec2 "i-0a1"); sample_instance "i-0c3" "eu-west-1"] |}.

(** The same run, but EC2 rejects every batch. *)
Definition env_all_rejected : nuke_env (entry := instance) :=
  {| check_aws_auth := true;
     confirmation := "";
     final_confirm := "";
     describe := describe_two_regions;
     scan_completed := AWS_REGIONS;
     terminate := api_rejects_batch;
     terminate_completed := ["us-east-1"];
     load_instances := [sample_instance "i-0c3" "eu-west-1"] |}.

(** What a run wrote to the persisted list, and the counts of its summary;
    [None] when the run did not write, or did not reach the summary. *)
Definition nuke_saved {entry : Type} (outcome : nuke_outcome (entry := entry))
  : option (list entry) :=
  match outcome with
  | Nuked _ _ saved => saved
  | _ => None
  end.

Definition nuke_counts {entry : Type} (outcome : nuke_outcome (entry := entry))
  : option term_counts :=
  match outcome with
  | Nuked _ counts _ => Some counts
  | _ => None
  end.

End Nuke.

(** ** The cluster manager, [amauo/manager.py] *)
Module Manager.

(** *** Characters and the [str] methods the manager uses *)

(** [str.isspace] of one character, which is also the class [\s] of a [str]
    pattern: tab to carriage return, the four separators before the space,
    the space, next-line and no-break space. *)
Definition is_space (c : ascii) : bool :=
  let n := N_of_ascii c in
  ((9 <=? n) && (n <=? 13) || (28 <=? n) && (n <=? 32) || (n =? 133) || (n =? 160))%N.

(** The class [\d]: below code point 256 the decimal digits are [0]..[9]. *)
Definition is_digit (c : ascii) : bool :=
  let n := N_of_ascii c in ((48 <=? n) && (n <=? 57))%N.

(** [str.lower] of one character: the letters [A]..[Z] and the capital
    letters of the Latin-1 supplement (all of [0xC0]..[0xDE] but the
    multiplication sign) move up by 32. *)
Definition lower_char (c : ascii) : ascii :=
  let n := N_of_ascii c in
  if ((65 <=? n) && (n <=? 90) || (192 <=? n) && (n <=? 222) && negb (n =? 215))%N
  then ascii_of_N (n + 32) else c.

Fixpoint lower (s : string) : string :=
  match s with
  | EmptyString => EmptyString
  | String c rest => String (lower_char c) (lower rest)
  end.

Fixpoint lstrip (s : string) : string :=
  match s with
  | EmptyString => EmptyString
  | String c rest => if is_space c then lstrip rest else s
  end.

Fixpoint rstrip (s : string) : string :=
  match s with
  | EmptyString => EmptyString
  | String c rest =>
      match rstrip rest with
      | EmptyString => if is_space c then EmptyString else String c EmptyString
      | kept => String c kept
      end
  end.

(** [s.strip()] *)
Definition strip (s : string) : string := rstrip (lstrip s).

(** [bool(s)] of a string *)
Definition nonempty (s : string) : bool :=
  match s with EmptyString => false | _ => true end.

(** [s.split(sep)] for a one-character separator: never the empty list. *)
Fixpoint split_on (sep : ascii) (s : string) : list string :=
  match s with
  | EmptyString => [EmptyString]
  | String c rest =>
      if Ascii.eqb c sep then EmptyString :: split_on sep rest
      else match split_on sep rest with
           | field :: fields => String c field :: fields
           | [] => [String c EmptyString]
           end
  end.

(** [s.split()]: the maximal runs of characters that are not whitespace. *)
Fixpoint split_ws (s : string) : list string :=
  match s with
  | EmptyString => []
  | String c rest =>
      if is_space c then split_ws rest
      else match rest with
           | EmptyString => [String c EmptyString]
           | String c' _ =>
               if is_space c' then String c EmptyString :: split_ws rest
               else match split_ws rest with
                    | word :: words => String c word :: words
                    | [] => [String c EmptyString]
                    end
           end
  end.

Definition newline : ascii := ascii_of_N 10.

(** [s[:n]] and [s[n:]] *)
Fixpoint take_str (n : nat) (s : string) : string :=
  match n, s with
  | S n', String c rest => String c (take_str n' rest)
  | _, _ => EmptyString
  end.

Fixpoint drop_str (n : nat) (s : string) : string :=
  match n, s with
  | S n', String _ rest => drop_str n' rest
  | _, _ => s
  end.

(** *** The fragment of [re] the manager uses

    The patterns of the manager are sequences of literal characters,
    greedy repetitions [c*] and [c+] of a one-character class, and capture
    groups that are not nested. A pattern is a list of tokens, a group being
    delimited by two marks as in the compiled form of [re]; matching
    backtracks over the length of each repetition, longest first. *)
Inductive token :=
| Chr (c : ascii)
| Rep (cls : ascii -> bool) (min : nat)
| GroupOpen
| GroupClose.

(** The number of leading characters of [s] in the class. *)
Fixpoint span (cls : ascii -> bool) (s : string) : nat :=
  match s with
  | EmptyString => 0
  | String c rest => if cls c then S (span cls rest) else 0
  end.

(** Try [k], [k - 1], ..., [min] repetitions, in that order. *)
Fixpoint greedy {A} (min k : nat) (continue : nat -> option A) : option A :=
  if (k <? min)%nat then None
  else match continue k with
       | Some r => Some r
       | None =>
           match k with
           | 0 => None
           | S k' => greedy min k' continue
           end
       end.

(** Match [pat] at the start of [s]: [marks] holds, for each open group, the
    text that was left when it opened, and [groups] the texts of the closed
    groups. The result is [match.groups()]. *)
Fixpoint re_run (pat : list token) (s : string)
    (marks : list string) (groups : list string) : option (list string) :=
  match pat with
  | [] => Some groups
  | Chr c :: pat' =>
      match s with
      | String c' rest => if Ascii.eqb c c' then re_run pat' rest marks groups else None
      | EmptyString => None
      end
  | Rep cls min :: pat' =>
      greedy min (span cls s) (fun k => re_run pat' (drop_str k s) marks groups)
  | GroupOpen :: pat' => re_run pat' s (s :: marks) groups
  | GroupClose :: pat' =>
      match marks with
      | opened :: marks' =>
          re_run pat' s marks'
            (groups ++ [take_str (String.length opened - String.length s) opened])
      | [] => None
      end
  end.

(** [re.match(pat, s)] *)
Definition re_match (pat : list token) (s : string) : option (list string) :=
  re_run pat s [] [].

(** [re.search(pat, s)]: the match at the leftmost position that has one. *)
Fixpoint re_search (pat : list token) (s : string) : option (list string) :=
  match re_match pat s with
  | Some groups => Some groups
  | None =>
      match s with
      | EmptyString => None
      | String _ rest => re_search pat rest
      end
  end.

(** The tokens of a literal text. *)
Definition lit (s : string) : list token := map Chr (list_ascii_of_string s).

Fixpoint all_chars (cls : ascii -> bool) (s : string) : bool :=
  match s with
  | EmptyString => true
  | String c rest => cls c && all_chars cls rest
  end.

(** What a pattern denotes, without the search: [s] starts with a text the
    pattern describes, a repetition standing for any run of its class that
    is long enough, and [result] is the groups of that reading. *)
Fixpoint pat_denotes (pat : list token) (s : string)
    (marks : list string) (groups : list string) (result : list string) : Prop :=
  match pat with
  | [] => result = groups
  | Chr c :: pat' =>
      exists rest, s = String c rest /\ pat_denotes pat' rest marks groups result
  | Rep cls min :: pat' =>
      exists w rest,
        s = w +:+ rest /\ all_chars cls w = true /\ min <= String.length w /\
        pat_denotes pat' rest marks groups result
  | GroupOpen :: pat' => pat_denotes pat' s (s :: marks) groups result
  | GroupClose :: pat' =>
      match marks with
      | opened :: marks' =>
          pat_denotes pat' s marks'
            (groups ++ [take_str (String.length opened - String.length s) opened])
            result
      | [] => False
      end
  end.

(** [repr(text)] of a [str]: the quote is the double quote when the text
    has a single quote and no double quote; the backslash, the quote in use,
    tab, newline and carriage return are escaped by a backslash, and the
    other characters that are not printable (the controls, the no-break
    space and the soft hyphen) are written in hexadecimal. *)
Definition double_quote : ascii := ascii_of_N 34.

Definition is_printable (c : ascii) : bool :=
  let n := N_of_ascii c in
  ((32 <=? n) && (n <? 127) || (161 <=? n) && negb (n =? 173))%N.

Definition hex_digit (n : N) : ascii :=
  if (n <? 10)%N then ascii_of_N (48 + n) else ascii_of_N (87 + n).

Definition repr_char (quote c : ascii) : string :=
  let n := N_of_ascii c in
  if Ascii.eqb c "\" then "\\"
  else if Ascii.eqb c quote then String "\" (String quote EmptyString)
  else if (n =? 9)%N then "\t"
  else if (n =? 10)%N then "\n"
  else if (n =? 13)%N then "\r"
  else if is_printable c then String c EmptyString
  else String "\" (String "x" (String (hex_digit (n / 16)) (String (hex_digit (n mod 16))
         EmptyString))).

Fixpoint repr_chars (quote : ascii) (text : string) : string :=
  match text with
  | EmptyString => EmptyString
  | String c rest => repr_char quote c +:+ repr_chars quote rest
  end.

Definition py_repr (text : string) : string :=
  let quote :=
    if str_in "'" text && negb (str_in (String double_quote EmptyString) text)
    then double_quote else "'"%char in
  String quote (repr_chars quote text +:+ String quote EmptyString).

(** [int(text)] for the text of a group of the manager's patterns, which is
    a text of decimal digits or a text that starts with a backslash: the
    value of a text of decimal digits, unless it has more digits than the
    default limit of the interpreter, and [ValueError] otherwise. The text
    of the error shows at most 200 characters of the [repr] of the text.
    (The signs, blanks and underscores [int] also accepts are in no group
    of the manager's patterns.) *)
Fixpoint digits_value (acc : N) (s : string) : N :=
  match s with
  | EmptyString => acc
  | String c rest => digits_value (acc * 10 + (N_of_ascii c - 48)) rest
  end.

(** [sys.get_int_max_str_digits()] *)
Definition int_max_str_digits : N := 4300.

Definition py_int (text : string) : result N :=
  if nonempty text && all_chars is_digit text then
    if (int_max_str_digits <? N.of_nat (String.length text))%N
    then Raise (PyExn None
                  ("Exceeds the limit (" +:+ pretty int_max_str_digits
                     +:+ " digits) for integer string conversion: value has "
                     +:+ pretty (N.of_nat (String.length text))
                     +:+ " digits; use sys.set_int_max_str_digits() to increase the limit"))
    else Ok (digits_value 0 text)
  else Raise (PyExn None
                ("invalid literal for int() with base 10: "
                   +:+ take_str 200 (py_repr text))).

(** *** [_parse_deployment_log_line] *)

Record log_event := LogEvent {
  node : string;
  rank : N;
  ip : string;
  message : string;
  timestamp : Q
}.

(** The pattern of a node line: an opening parenthesis; group 1, one or more
    characters that are not a comma; a comma, optional whitespace and
    [rank=]; group 2, one or more digits; a comma, optional whitespace,
    [pid=] and one or more digits; a comma, optional whitespace and [ip=];
    group 3, one or more characters that are not a closing parenthesis; the
    closing parenthesis and optional whitespace; group 4, any characters up
    to the end of the line. *)
Definition log_line_pattern : list token :=
  lit "(" ++ [GroupOpen; Rep (fun c => negb (Ascii.eqb c ",")) 1; GroupClose] ++
  lit "," ++ [Rep is_space 0] ++
  lit "rank=" ++ [GroupOpen; Rep is_digit 1; GroupClose] ++
  lit "," ++ [Rep is_space 0] ++
  lit "pid=" ++ [Rep is_digit 1] ++
  lit "," ++ [Rep is_space 0] ++
  lit "ip=" ++ [GroupOpen; Rep (fun c => negb (Ascii.eqb c ")")) 1; GroupClose] ++
  lit ")" ++ [Rep is_space 0] ++
  [GroupOpen; Rep (fun c => negb (Ascii.eqb c newline)) 0; GroupClose].

(** [now] is what [time.time()] gives. The pattern has four groups. *)
Definition _parse_deployment_log_line (now : Q) (line : string)
  : result (option log_event) :=
  match re_match log_line_pattern line with
  | Some [node_name; rank; ip; message] =>
      match py_int rank with
      | Ok rank =>
          Ok (Some {| node := node_name;
                      rank := rank;
                      ip := ip;
                      message := strip message;
                      timestamp := now |})
      | Raise e => Raise e
      end
  | _ => Ok None
  end.

(** A line has the shape of a node line when it starts with a parenthesised
    head [(name, rank=digits, pid=digits, ip=address)]; whatever follows the
    head is the message. *)
Definition node_line_shape (line : string) : Prop :=
  exists node_name ws1 rank ws2 pid ws3 ip rest,
    line = "(" +:+ node_name +:+ "," +:+ ws1 +:+ "rank=" +:+ rank +:+ ","
           +:+ ws2 +:+ "pid=" +:+ pid +:+ "," +:+ ws3 +:+ "ip=" +:+ ip +:+ ")"
           +:+ rest /\
    node_name <> "" /\ all_chars (fun c => negb (Ascii.eqb c ",")) node_name = true /\
    all_chars is_space ws1 = true /\
    rank <> "" /\ all_chars is_digit rank = true /\
    all_chars is_space ws2 = true /\
    pid <> "" /\ all_chars is_digit pid = true /\
    all_chars is_space ws3 = true /\
    ip <> "" /\ all_chars (fun c => negb (Ascii.eqb c ")")) ip = true.

(** *** [_parse_duration_to_seconds] *)

(** The three patterns are raw strings in which the digit class is written
    with two backslashes. In a raw string the two backslashes stay two
    characters, and the pattern they make is, inside the group, a backslash
    and then one or more letters [d]; the unit letter follows the group. *)
Definition duration_pattern (unit : ascii) : list token :=
  [GroupOpen; Chr "\"; Rep (Ascii.eqb "d") 1; GroupClose; Chr unit].

(** [if m: total_seconds += int(m.group(1)) * factor] *)
Definition add_component (m : option (list string)) (factor : N)
    (total_seconds : N) : result N :=
  match m with
  | Some groups =>
      match py_int (nth 0 groups EmptyString) with
      | Ok n => Ok (total_seconds + n * factor)%N
      | Raise e => Raise e
      end
  | None => Ok total_seconds
  end.

Definition _parse_duration_to_seconds (duration : string) : result N :=
  let hours := re_search (duration_pattern "h") duration in
  let minutes := re_search (duration_pattern "m") duration in
  let seconds := re_search (duration_pattern "s") duration in
  match add_component hours 3600 0 with
  | Raise e => Raise e
  | Ok total_seconds =>
      match add_component minutes 60 total_seconds with
      | Raise e => Raise e
      | Ok total_seconds => add_component seconds 1 total_seconds
      end
  end.

(** *** The command gateway: [ensure_docker_container] and [run_sky_cmd] *)

Record manager := ClusterManager {
  log_to_console : bool;
  docker_container : string;
  skypilot_image : string
}.

(** [ClusterManager(log_to_console)] *)
Definition new_manager (log_to_console : bool) : manager :=
  {| log_to_console := log_to_console;
     docker_container := "skypilot-cluster-deploy";
     skypilot_image := "berkeleyskypilot/skypilot" |}.

(** The classes of exception that a handler of the manager names; every
    other [Exception] is of the third class. *)
Inductive exn_class :=
| TimeoutExpired
| FileNotFoundError
| OtherException.

(** What [subprocess.run] does with a command line: the process ends with a
    return code and its two outputs, or an exception is raised: the timeout
    expires, the program is not found, or another one. *)
Inductive proc_outcome :=
| Completed (returncode : Z) (stdout stderr : string)
| ProcRaised (class : exn_class) (e : py_exn).

(** The four debug prints of [run_sky_cmd]. *)
Inductive debug_point :=
| DebugRunning
| DebugCompleted
| DebugTimedOut
| DebugFailed.

(** What [Path.home()] and [Path.cwd()] do: they give a path, or raise. *)
Inductive path_outcome :=
| PathIs (path : string)
| PathRaised (class : exn_class) (e : py_exn).

(** The machine the manager runs on. [log level message] is what
    [self.log(level, message, style)] does for [log_info], [log_success] and
    [log_error]: it prints the message and, unless the manager logs to the
    console, creates the directory of the log file and appends the message
    to the file; [None] when nothing raises. [debug_print] is what a debug
    [print] of [run_sky_cmd] does; the text it prints shows the elapsed
    time and nothing else depends on it. *)
Record host := Host {
  subprocess_run : list string -> proc_outcome;
  home : path_outcome;
  cwd : path_outcome;
  log : string -> string -> option (exn_class * py_exn);
  debug_print : debug_point -> option py_exn
}.

Definition docker_ps_argv (self : manager) : list string :=
  ["docker"; "ps"; "--filter"; "name=" +:+ docker_container self;
   "--filter"; "status=running"; "--quiet"].

Definition docker_run_argv (home cwd : string) (self : manager) : list string :=
  ["docker"; "run"; "-td"; "--rm"; "--name"; docker_container self;
   "-v"; home +:+ "/.sky:/root/.sky:rw";
   "-v"; home +:+ "/.aws:/root/.aws:rw";
   "-v"; home +:+ "/.config/gcloud:/root/.config/gcloud:rw";
   "-v"; cwd +:+ ":/workspace:rw";
   "-w"; "/workspace"; skypilot_image self].

(** The two handlers of the [try] of [ensure_docker_container], for an
    exception of the given class: each logs an error and returns [False]. An
    exception of that log write is in no [try]: it leaves the function. *)
Definition docker_handler (h : host) (class : exn_class) (e : py_exn) : result bool :=
  let message :=
    match class with
    | FileNotFoundError => "Docker command not found. Please install Docker."
    | _ => "Failed to manage Docker container: " +:+ exn_str e
    end in
  match log h "ERROR" message with
  | None => Ok false
  | Some (_, raised) => Raise raised
  end.

(** A log write inside the [try]: its exception goes to the handlers. *)
Definition logged (h : host) (level message : string) (k : result bool) : result bool :=
  match log h level message with
  | None => k
  | Some (class, e) => docker_handler h class e
  end.

(** A [subprocess.run] inside the [try], likewise. *)
Definition ran (h : host) (argv : list string)
    (k : Z -> string -> string -> result bool) : result bool :=
  match subprocess_run h argv with
  | Completed returncode stdout stderr => k returncode stdout stderr
  | ProcRaised class e => docker_handler h class e
  end.

(** [Path.home()] or [Path.cwd()] inside the [try], likewise. *)
Definition located (h : host) (place : path_outcome) (k : string -> result bool)
  : result bool :=
  match place with
  | PathIs path => k path
  | PathRaised class e => docker_handler h class e
  end.

Definition ensure_docker_container (h : host) (self : manager) : result bool :=
  ran h (docker_ps_argv self) (fun _ stdout _ =>
    if nonempty (strip stdout) then Ok true
    else
      logged h "INFO" "Starting SkyPilot Docker container..." (
      ran h ["docker"; "rm"; docker_container self] (fun _ _ _ =>
      located h (home h) (fun home =>
      located h (cwd h) (fun cwd =>
      ran h (docker_run_argv home cwd self) (fun returncode _ stderr =>
        if (returncode =? 0)%Z
        then logged h "SUCCESS" "SkyPilot Docker container started" (Ok true)
        else
          logged h "ERROR" "Failed to start SkyPilot Docker container" (
          if nonempty stderr
          then logged h "ERROR" ("Docker error: " +:+ stderr) (Ok false)
          else Ok false))))))).

Definition sky_argv (self : manager) (args : list string) : list string :=
  ["docker"; "exec"; docker_container self; "sky"] ++ args.

(** [if self.log_to_console: print(...)] *)
Definition debug (h : host) (self : manager) (point : debug_point) : option py_exn :=
  if log_to_console self then debug_print h point else None.

(** The call of [ensure_docker_container] and the first debug print are
    outside the [try]; the second print is inside it, and the prints of the
    two handlers are in no [try]. The elapsed time is used by the debug
    prints only. *)
Definition run_sky_cmd (h : host) (self : manager) (args : list string) (timeout : Z)
  : result (bool * string * string) :=
  match ensure_docker_container h self with
  | Raise e => Raise e
  | Ok false => Ok (false, "", "Failed to start container")
  | Ok true =>
      let cmd_str := String.concat " " args in
      let failed (e : py_exn) :=
        match debug h self DebugFailed with
        | Some raised => Raise raised
        | None => Ok (false, "", exn_str e)
        end in
      match debug h self DebugRunning with
      | Some raised => Raise raised
      | None =>
          match subprocess_run h (sky_argv self args) with
          | Completed returncode stdout stderr =>
              match debug h self DebugCompleted with
              | Some raised => failed raised
              | None => Ok ((returncode =? 0)%Z, stdout, stderr)
              end
          | ProcRaised TimeoutExpired _ =>
              match debug h self DebugTimedOut with
              | Some raised => Raise raised
              | None =>
                  Ok (false, "",
                      "Command 'sky " +:+ cmd_str +:+ "' timed out after "
                        +:+ pretty timeout +:+ " seconds")
              end
          | ProcRaised _ e => failed e
          end
      end
  end.

(** *** The node table of [_monitor_deployment_progress] *)

Record node_entry := NodeEntry {
  entry_node : string;
  entry_rank : N;
  entry_ip : string;
  recent_messages : list string;
  entry_timestamp : Q
}.

(** [f"{node_info['node']}-{node_info['rank']}"] *)
Definition node_id (node_info : log_event) : string :=
  node node_info +:+ "-" +:+ pretty (rank node_info).

(** The statements the loop runs for a line that parsed: create the entry
    when the id is new, update the address and the time, append the message,
    and pop the first message when there are more than five. *)
Definition record_event (nodes : gmap string node_entry) (node_info : log_event)
  : gmap string node_entry :=
  let node_id := node_id node_info in
  let entry :=
    match nodes !! node_id with
    | Some entry => entry
    | None =>
        {| entry_node := node node_info;
           entry_rank := rank node_info;
           entry_ip := ip node_info;
           recent_messages := [];
           entry_timestamp := timestamp node_info |}
    end in
  let appended := recent_messages entry ++ [message node_info] in
  <[node_id :=
      {| entry_node := entry_node entry;
         entry_rank := entry_rank entry;
         entry_ip := ip node_info;
         recent_messages :=
           if (5 <? length appended)%nat then tail appended else appended;
         entry_timestamp := timestamp node_info |}]> nodes.

(** One line of the log file, read at time [now]: the body of
    [for line in new_lines]. *)
Definition process_line (nodes : gmap string node_entry) (now : Q) (line : string)
  : result (gmap string node_entry) :=
  match _parse_deployment_log_line now (strip line) with
  | Ok (Some node_info) => Ok (record_event nodes node_info)
  | Ok None => Ok nodes
  | Raise e => Raise e
  end.

(** [for line in new_lines], on the lines read with the times at which they
    are parsed: an exception leaves the loop, and the table keeps what the
    earlier lines did to it. *)
Fixpoint process_lines (nodes : gmap string node_entry) (reads : list (Q * string))
  : gmap string node_entry * result unit :=
  match reads with
  | [] => (nodes, Ok tt)
  | (now, line) :: rest =>
      match process_line nodes now line with
      | Ok nodes' => process_lines nodes' rest
      | Raise e => (nodes, Raise e)
      end
  end.

(** The events of the lines that parse. *)
Definition events_of (reads : list (Q * string)) : list log_event :=
  omap (fun read =>
          match _parse_deployment_log_line read.1 (strip read.2) with
          | Ok (Some node_info) => Some node_info
          | _ => None
          end) reads.

(** The table of a session after the events of the lines that parsed. *)
Definition nodes_after (events : list log_event) : gmap string node_entry :=
  foldl record_event ∅ events.

(** The messages a session has recorded for a node id, oldest first. *)
Definition messages_of (node_id' : string) (events : list log_event) : list string :=
  map message (filter (fun node_info => node_id node_info = node_id') events).

(** The last [n] elements of a list. *)
Definition last_n {A} (n : nat) (l : list A) : list A := drop (length l - n) l.

(** *** [_monitor_deployment_progress_streaming] *)

(** The variables of the loop that outlive a tick and decide its course. *)
Record monitor_state := MonitorState {
  deployment_cluster : option string;
  completion_detected : bool
}.

(** A statement of the loop body: it may change the state and may raise;
    what was assigned before an exception stays assigned. *)
Definition stmt (A : Type) : Type := monitor_state -> monitor_state * result A.

Definition ret {A} (a : A) : stmt A := fun st => (st, Ok a).

Definition bind {A B} (m : stmt A) (k : A -> stmt B) : stmt B :=
  fun st =>
    match m st with
    | (st', Ok a) => k a st'
    | (st', Raise e) => (st', Raise e)
    end.

Notation "'let*' x ':=' m 'in' k" := (bind m (fun x => k))
  (at level 10, x name, m at level 100, k at level 200).

(** What [run_sky_cmd] gives during one tick, as a function of its arguments:
    a triple, or an exception that escapes the gateway. *)
Definition sky_oracle := list string -> result (bool * string * string).

Definition call (sky : sky_oracle) (args : list string) : stmt (bool * string * string) :=
  fun st => (st, sky args).

Definition set_completion_detected : stmt unit :=
  fun st =>
    ({| deployment_cluster := deployment_cluster st; completion_detected := true |},
     Ok tt).

(** [if deployment_cluster is None: deployment_cluster = potential_cluster] *)
Definition adopt_cluster (potential_cluster : string) : stmt string :=
  fun st =>
    let cluster := default potential_cluster (deployment_cluster st) in
    ({| deployment_cluster := Some cluster;
        completion_detected := completion_detected st |},
     Ok cluster).

Fixpoint for_each {A} (l : list A) (body : A -> stmt unit) : stmt unit :=
  match l with
  | [] => ret tt
  | x :: rest => let* _ := body x in for_each rest body
  end.

Definition completion_keywords : list string :=
  ["deployment complete"; "cluster is running"; "node is ready"].

(** The body of [for qline in queue_lines]. The test of the keywords is not
    under the test of [log_success]. *)
Definition queue_line (sky : sky_oracle) (job_name cluster qline : string) : stmt unit :=
  if str_in job_name qline then
    let qparts := split_ws qline in
    if (7 <=? length qparts)%nat then
      let status := nth 6 qparts EmptyString in
      if String.eqb status "RUNNING" then
        let* logs := call sky ["logs"; cluster; "--tail=3"] in
        let '(_, log_stdout, _) := logs in
        if existsb (fun keyword => str_in keyword (lower log_stdout)) completion_keywords
        then set_completion_detected
        else ret tt
      else if String.eqb status "PENDING" then ret tt
      else if String.eqb status "SUCCEEDED" then set_completion_detected
      else if String.eqb status "FAILED" then set_completion_detected
      else ret tt
    else ret tt
  else ret tt.

(** [for line in lines], which ends at the [break] of the first line that
    names a cluster. *)
Fixpoint status_lines (sky : sky_oracle) (job_name : string) (lines : list string)
  : stmt unit :=
  match lines with
  | [] => ret tt
  | line :: rest =>
      if str_in "sky-" line && (str_in "INIT" line || str_in "UP" line) then
        match split_ws line with
        | potential_cluster :: _ =>
            let* cluster := adopt_cluster potential_cluster in
            if str_in "UP" line then
              let* queue := call sky ["queue"; cluster] in
              let '(queue_success, queue_stdout, _) := queue in
              if queue_success && nonempty queue_stdout
              then for_each (split_on newline queue_stdout)
                     (queue_line sky job_name cluster)
              else ret tt
            else ret tt
        | [] => status_lines sky job_name rest
        end
      else status_lines sky job_name rest
  end.

(** The [try] block of one tick, without what it only displays. *)
Definition poll (sky : sky_oracle) (job_name : string) : stmt unit :=
  let* status := call sky ["status"] in
  let '(status_success, status_stdout, _) := status in
  if status_success && nonempty status_stdout
  then status_lines sky job_name (split_on newline status_stdout)
  else ret tt.

(** One tick: the [try] block, and the handler that shows the error panel
    and goes on. *)
Definition tick (sky : sky_oracle) (job_name : string) (st : monitor_state)
  : monitor_state :=
  (poll sky job_name st).1.

(** The panel the function shows last. *)
Inductive monitor_outcome :=
| MonitoringComplete
| MonitoringTimeout.

(** [20 * 60] *)
Definition timeout : Q := 1200.

Definition Qltb (x y : Q) : bool := negb (Qle_bool y x).

(** The [while] loop from its [k]-th test on: [clock k] is what [time.time()]
    gives in that test, and [sky k] the gateway during the tick that follows.
    The result is the last panel and the number of ticks that ran; [None]
    when the fuel runs out first. A run that the user interrupts from the
    keyboard is not a run of this model. *)
Fixpoint monitor_loop (fuel : nat) (clock : nat -> Q) (start_time : Q)
    (sky : nat -> sky_oracle) (job_name : string) (k : nat) (st : monitor_state)
  : option (monitor_outcome * nat) :=
  match fuel with
  | 0 => None
  | S fuel' =>
      if Qltb (clock k - start_time) timeout && negb (completion_detected st)
      then monitor_loop fuel' clock start_time sky job_name (S k) (tick (sky k) job_name st)
      else Some (if completion_detected st then MonitoringComplete else MonitoringTimeout, k)
  end.

Definition _monitor_deployment_progress_streaming (fuel : nat) (clock : nat -> Q)
    (start_time : Q) (sky : nat -> sky_oracle) (cluster_name : string)
  : option (monitor_outcome * nat) :=
  monitor_loop fuel clock start_time sky cluster_name 0
    {| deployment_cluster := None; completion_detected := false |}.

(** The state of the loop after its first [k] ticks. *)
Fixpoint state_after (sky : nat -> sky_oracle) (job_name : string) (k : nat)
  : monitor_state :=
  match k with
  | 0 => {| deployment_cluster := None; completion_detected := false |}
  | S k' => tick (sky k') job_name (state_after sky job_name k')
  end.

(** A statement keeps the progress of the session when it leaves a cluster
    that is being followed in place and a detected completion detected. *)
Definition keeps_progress {A} (m : stmt A) : Prop :=
  forall st,
    (forall c, deployment_cluster st = Some c ->
               deployment_cluster (m st).1 = Some c) /\
    (completion_detected st = true -> completion_detected (m st).1 = true).

(** *** [_detect_deployment_completion] *)

Definition completion_indicators : list string :=
  ["deployment complete"; "cluster is running"; "sensor simulator started";
   "bacalhau compute started"; "deployment status"; "node is ready"].

(** The first loop: the name on the first line that shows a cluster as up. *)
Fixpoint find_up_cluster (lines : list string) : option string :=
  match lines with
  | [] => None
  | line :: rest =>
      if str_in "sky-" line && str_in "UP" line then
        match split_ws line with
        | actual_cluster_name :: _ => Some actual_cluster_name
        | [] => find_up_cluster rest
        end
      else find_up_cluster rest
  end.

(** The branch of a row whose status is [RUNNING]; its [try] swallows every
    exception. *)
Definition running_row (sky : sky_oracle) (actual_cluster_name duration : string)
  : bool * string :=
  let still_running := (false, "Job still running (" +:+ duration +:+ ")") in
  match _parse_duration_to_seconds duration with
  | Ok duration_seconds =>
      if (300 <? duration_seconds)%N then
        match sky ["logs"; actual_cluster_name; "--tail=10"] with
        | Ok (log_success, log_stdout, _) =>
            if log_success && nonempty log_stdout
               && existsb (fun indicator => str_in indicator (lower log_stdout))
                    completion_indicators
            then (true, "Deployment setup completed (running for " +:+ duration +:+ ")")
            else still_running
        | Raise _ => still_running
        end
      else still_running
  | Raise _ => still_running
  end.

(** The second loop, over the lines of the queue. *)
Fixpoint queue_rows (sky : sky_oracle) (cluster_name actual_cluster_name : string)
    (lines : list string) : bool * string :=
  match lines with
  | [] => (false, "Job not found in queue")
  | line :: rest =>
      if str_in cluster_name line then
        let parts := split_ws line in
        if (7 <=? length parts)%nat then
          let status := nth 6 parts EmptyString in
          let duration := nth 5 parts EmptyString in
          if String.eqb status "SUCCEEDED"
          then (true, "Job completed successfully in " +:+ duration)
          else if String.eqb status "FAILED"
          then (true, "Job failed after " +:+ duration)
          else if String.eqb status "RUNNING"
          then running_row sky actual_cluster_name duration
          else if String.eqb status "PENDING"
          then (false, "Job pending (" +:+ duration +:+ ")")
          else queue_rows sky cluster_name actual_cluster_name rest
        else queue_rows sky cluster_name actual_cluster_name rest
      else queue_rows sky cluster_name actual_cluster_name rest
  end.

(** [sky] is the gateway during the call. *)
Definition _detect_deployment_completion (sky : sky_oracle) (cluster_name : string)
  : bool * string :=
  match sky ["status"] with
  | Raise e => (false, "Error checking completion: " +:+ exn_str e)
  | Ok (status_success, status_stdout, _) =>
      if negb status_success || negb (nonempty status_stdout)
      then (false, "Cannot get cluster status")
      else
        match find_up_cluster (split_on newline status_stdout) with
        | None => (false, "Cluster not yet UP")
        | Some actual_cluster_name =>
            match sky ["queue"; actual_cluster_name] with
            | Raise e => (false, "Error checking completion: " +:+ exn_str e)
            | Ok (queue_success, queue_stdout, _) =>
                if negb queue_success then (false, "Cannot check job queue")
                else queue_rows sky cluster_name actual_cluster_name
                       (split_on newline queue_stdout)
            end
        end
  end.

(** *** [_extract_node_info_from_logs] *)

(** [for line in stdout.split("\n")]: the dict keeps, for a node id, the
    event of the last line of that node. *)
Fixpoint collect_nodes (nodes : gmap string log_event) (reads : list (Q * string))
  : result (gmap string log_event) :=
  match reads with
  | [] => Ok nodes
  | (now, line) :: rest =>
      match _parse_deployment_log_line now (strip line) with
      | Ok (Some node_info) => collect_nodes (<[node_id node_info := node_info]> nodes) rest
      | Ok None => collect_nodes nodes rest
      | Raise e => Raise e
      end
  end.

(** The lines of the output, each with the time at which it is parsed. *)
Definition timed_lines (now : nat -> Q) (stdout : string) : list (Q * string) :=
  imap (fun i line => (now i, line)) (split_on newline stdout).

(** [cluster_name] is what [get_sky_cluster_name] gives, [sky] the gateway,
    and [now i] what [time.time()] gives for line [i]. The call of
    [get_sky_cluster_name] is outside the [try]; the handler of the [try]
    returns the empty dict. *)
Definition _extract_node_info_from_logs (cluster_name : result (option string))
    (sky : sky_oracle) (now : nat -> Q) : result (gmap string log_event) :=
  match cluster_name with
  | Raise e => Raise e
  | Ok None => Ok ∅
  | Ok (Some cluster_name) =>
      if negb (nonempty cluster_name) then Ok ∅
      else
        match sky ["logs"; cluster_name; "--tail=100"] with
        | Raise _ => Ok ∅
        | Ok (success, stdout, _) =>
            if negb success || negb (nonempty stdout) then Ok ∅
            else
              match collect_nodes ∅ (timed_lines now stdout) with
              | Ok nodes => Ok nodes
              | Raise _ => Ok ∅
              end
        end
  end.

(** *** The cluster section of [monitor_deployments] *)

(** The three tests of the loop on a line: the header of the cluster
    table, the start of another section, and a status word. *)
Definition cluster_header (line : string) : bool :=
  str_in "NAME" line && str_in "INFRA" line && str_in "RESOURCES" line.

Definition next_section (line : string) : bool :=
  String.prefix "Managed jobs" line || String.prefix "Services" line.

Definition shows_status (line : string) : bool :=
  existsb (fun status => str_in status line) ["INIT"; "UP"; "STOPPED"; "DOWN"].

(** The loop that collects [clusters_found] from the lines of the status
    output; [in_clusters_section] is its flag, and the [break] leaves the
    list as it is. *)
Fixpoint clusters_found (in_clusters_section : bool) (lines : list string)
  : list string :=
  match lines with
  | [] => []
  | line :: rest =>
      if cluster_header line then clusters_found true rest
      else if in_clusters_section && nonempty (strip line) then
        if next_section line then []
        else if shows_status line
        then strip line :: clusters_found in_clusters_section rest
        else clusters_found in_clusters_section rest
      else clusters_found in_clusters_section rest
  end.

(** The cluster that [follow] monitors: the name on the first found line
    that shows [INIT]. *)
Fixpoint active_cluster (found : list string) : option string :=
  match found with
  | [] => None
  | cluster_line :: rest =>
      if str_in "INIT" cluster_line then head (split_ws cluster_line)
      else active_cluster rest
  end.

(** A status output in the layout of the header the loop looks for, and the
    same clusters under a header without the infrastructure column. *)
Definition status_with_infra : string :=
  "Clusters" +:+ String newline
  ("NAME  INFRA  RESOURCES  STATUS" +:+ String newline
  ("sky-7f3a-ops  AWS  1x(t3.medium)  INIT" +:+ String newline
  ("sky-91bc-ops  AWS  1x(t3.medium)  UP" +:+ String newline
  ("" +:+ String newline
  ("Managed jobs" +:+ String newline
   "No in-progress managed jobs. UP next: none"))))).

Definition status_without_infra : string :=
  "NAME  LAUNCHED  RESOURCES  STATUS" +:+ String newline
  "sky-7f3a-ops  2m ago  1x(t3.medium)  UP".

(** A gateway whose logs show two lines of one node around a line of
    another shape. *)
Definition sky_two_log_lines : sky_oracle :=
  fun args =>
    match args with
    | ["logs"; _; _] =>
        Ok (true,
            "(worker8, rank=8, pid=2816, ip=172.31.41.250) Pulling image"
              +:+ String newline
            ("Docker daemon is running" +:+ String newline
             "(worker8, rank=8, pid=2816, ip=172.31.41.250) Node is ready"), "")
    | _ => Ok (false, "", "")
    end.

(** A gateway with a cluster that is up and a job that has been running for
    an hour, whose logs say that the deployment is complete. *)
Definition sky_job_running_long : sky_oracle :=
  fun args =>
    match args with
    | ["status"] =>
        Ok (true, "NAME LAUNCHED RESOURCES STATUS" +:+ String newline
                    "sky-7f3a-ops 2m 1x-AWS UP", "")
    | ["queue"; _] =>
        Ok (true, "ID NAME USER SUBMITTED STARTED DURATION STATUS" +:+ String newline
                    "1 amauo-cluster ops 12:00 12:01 1h2m3s RUNNING", "")
    | ["logs"; _; _] => Ok (true, "Deployment complete", "")
    | _ => Ok (false, "", "")
    end.

(** *** The gateway contract as the component design words it *)

(** A failure is reported as [ok = false] with a populated error detail. *)
Definition failure_as_specified (r : bool * string * string) : Prop :=
  r.1.1 = false /\ r.2 <> "".

(** *** Scenarios: concrete hosts, clocks and gateways *)

(** The container is up, and every other command ends as [sky] says. *)
Definition host_container_up (sky : proc_outcome) : host :=
  {| subprocess_run := fun argv =>
       match argv with
       | "docker" :: "ps" :: _ => Completed 0 "4f9c2d1a7b3e" ""
       | _ => sky
       end;
     home := PathIs "/home/ops";
     cwd := PathIs "/srv/deploy";
     log := fun _ _ => None;
     debug_print := fun _ => None |}.

(** The timeout of a [sky] command expires. *)
Definition sky_timeout : proc_outcome :=
  ProcRaised TimeoutExpired
    (PyExn None "Command '['docker', 'exec', 'skypilot-cluster-deploy', 'sky', 'status']' timed out after 10 seconds").

(** No [docker] program on the machine. *)
Definition host_without_docker : host :=
  {| subprocess_run := fun _ =>
       ProcRaised FileNotFoundError
         (PyExn None "[Errno 2] No such file or directory: 'docker'");
     home := PathIs "/home/ops";
     cwd := PathIs "/srv/deploy";
     log := fun _ _ => None;
     debug_print := fun _ => None |}.

(** No [docker] program either, and the log file cannot be written. *)
Definition host_log_denied : host :=
  {| subprocess_run := fun _ =>
       ProcRaised FileNotFoundError
         (PyExn None "[Errno 2] No such file or directory: 'docker'");
     home := PathIs "/home/ops";
     cwd := PathIs "/srv/deploy";
     log := fun _ _ =>
       Some (OtherException,
             PyExn None "[Errno 13] Permission denied: 'cluster-deploy.log'");
     debug_print := fun _ => None |}.

(** A clock whose tests of the loop condition are three seconds apart, the
    sleep of a tick, the first one at the start time. *)
Definition clock_every_3s (k : nat) : Q := inject_Z (3 * Z.of_nat k).

(** A gateway that raises at every call. *)
Definition sky_always_raises (k : nat) : sky_oracle :=
  fun _ => Raise (PyExn None "Connection reset by peer").

(** A gateway that shows one cluster that is up and, in its queue, the job
    as succeeded. *)
Definition sky_job_succeeded (k : nat) : sky_oracle :=
  fun args =>
    match args with
    | ["status"] =>
        Ok (true, "NAME LAUNCHED RESOURCES STATUS" +:+ String newline
                    "sky-7f3a-ops 2m 1x-AWS UP", "")
    | ["queue"; _] =>
        Ok (true, "ID NAME USER SUBMITTED STARTED DURATION STATUS" +:+ String newline
                    "1 amauo-cluster ops 12:00 12:01 5m30s SUCCEEDED", "")
    | _ => Ok (false, "", "")
    end.

(** The [i]-th message of one node. *)
Definition worker8_event (i : N) : log_event :=
  {| node := "worker8"; rank := 8; ip := "172.31.41.250";
     message := "step " +:+ pretty i; timestamp := inject_Z (Z.of_N i) |}.

Definition seven_events : list log_event :=
  map worker8_event [1; 2; 3; 4; 5; 6; 7]%N.

(** The log lines of those seven messages, with a line of another shape
    among them. *)
Definition worker8_line (i : N) : Q * string :=
  (inject_Z (Z.of_N i),
   "(worker8, rank=8, pid=2816, ip=172.31.41.250) step " +:+ pretty i).

(** The text of [s] up to its first newline. *)
Definition first_line (s : string) : string :=
  take_str (span (fun c => negb (Ascii.eqb c newline)) s) s.

Definition seven_reads : list (Q * string) :=
  map worker8_line [1; 2; 3]%N
  ++ [((7 # 2)%Q, "Pulling image ghcr.io/bacalhau-project/bacalhau:latest")]
  ++ map worker8_line [4; 5; 6; 7]%N.

End Manager.

(** * Properties *)

(** ** The nuke command *)
Section NukeFacts.
Import Nuke.

(** *** Dicts built by insertion *)

Lemma foldl_insert_lookup {V} (kvs : list (string * V)) (m : gmap string V) k :
  foldl (fun m kv => <[kv.1 := kv.2]> m) m kvs !! k =
  match last (filter (fun kv => kv.1 = k) kvs) with
  | Some kv => Some kv.2
  | None => m !! k
  end.
Proof.
  revert m. induction kvs as [|[k' v] kvs IH]; intros m; simpl; [done|].
  rewrite IH. rewrite filter_cons. simpl.
  destruct (decide (k' = k)) as [->|Hne].
  - destruct (filter _ kvs) as [|kv l] eqn:E; simpl.
    + by rewrite lookup_insert_eq.
    + destruct (last (kv :: l)) eqn:E2; [done|]. by apply last_None in E2.
  - destruct (last _); [done|]. by rewrite lookup_insert_ne.
Qed.

Lemma dict_of_lookup_Some {V} (kvs : list (string * V)) k v :
  dict_of kvs !! k = Some v -> (k, v) ∈ kvs.
Proof.
  unfold dict_of. rewrite foldl_insert_lookup, lookup_empty.
  destruct (last _) as [[k' v']|] eqn:E; [|done].
  intros [= <-]. apply last_Some_elem_of in E.
  apply list_elem_of_filter in E as [Hk Hin]. simpl in *. by subst.
Qed.

Lemma dict_of_dom {V} (kvs : list (string * V)) :
  dom (dict_of kvs) = list_to_set (map fst kvs).
Proof.
  apply set_eq. intros k. rewrite elem_of_dom, elem_of_list_to_set.
  unfold dict_of. rewrite foldl_insert_lookup, lookup_empty. split.
  - destruct (last _) as [kv|] eqn:E; [|by intros [? ?]].
    intros _. apply last_Some_elem_of in E.
    apply list_elem_of_filter in E as [Hk Hin]. subst k.
    apply list_elem_of_fmap. by exists kv.
  - intros Hin. apply list_elem_of_fmap in Hin as [kv [-> Hin]].
    destruct (last _) as [kv'|] eqn:E; [by eexists|].
    apply last_None in E.
    assert (kv ∈ filter (fun kv0 : string * V => kv0.1 = kv.1) kvs) as Hf
      by (by apply list_elem_of_filter).
    rewrite E in Hf. by apply elem_of_nil in Hf.
Qed.

Lemma dict_of_const_lookup {V} (f : string -> V) (ks : list string) k :
  k ∈ ks -> dict_of (map (fun i => (i, f i)) ks) !! k = Some (f k).
Proof.
  intros Hin. unfold dict_of. rewrite foldl_insert_lookup.
  destruct (last _) as [kv|] eqn:E.
  - apply last_Some_elem_of in E.
    apply list_elem_of_filter in E as [Hk Hin'].
    apply list_elem_of_fmap in Hin' as [i [-> _]]. simpl in *. by subst.
  - apply last_None in E.
    assert ((k, f k) ∈ filter (fun kv : string * V => kv.1 = k)
                         (map (fun i => (i, f i)) ks)) as Hf.
    { apply list_elem_of_filter. split; [done|].
      apply list_elem_of_fmap. by exists k. }
    rewrite E in Hf. by apply elem_of_nil in Hf.
Qed.

Lemma dict_of_const_dom {V} (f : string -> V) (ks : list string) :
  dom (dict_of (map (fun i => (i, f i)) ks)) = list_to_set ks.
Proof.
  rewrite dict_of_dom. f_equal. rewrite map_map. simpl. apply map_id.
Qed.

(** *** [terminate_instances_in_region] *)

Lemma terminate_failure_results terminate region ids e :
  ids <> [] ->
  terminate region ids = Raise e ->
  terminate_instances_in_region terminate region ids =
  dict_of (map (fun i => (i, "ERROR: " +:+ exn_str e)) ids).
Proof.
  intros Hne He. unfold terminate_instances_in_region.
  destruct ids; [done|]. by rewrite He.
Qed.

(** C3. When the termination call of a region fails as a whole, the map
    [terminate_instances_in_region] returns for a non-empty id list has
    exactly the requested ids as keys, and maps each of them to the error
    string that carries the failure's text. *)
Theorem terminate_region_batch_failure
    (terminate : terminate_api) (region : string) (ids : list string) (e : py_exn) :
  ids <> [] ->
  terminate region ids = Raise e ->
  dom (terminate_instances_in_region terminate region ids) = list_to_set ids /\
  forall i, i ∈ ids ->
    terminate_instances_in_region terminate region ids !! i
    = Some ("ERROR: " +:+ exn_str e).
Proof.
  intros Hne He. rewrite (terminate_failure_results _ _ _ _ Hne He). split.
  - apply (dict_of_const_dom (fun _ => "ERROR: " +:+ exn_str e)).
  - intros i Hi.
    apply (dict_of_const_lookup (fun _ => "ERROR: " +:+ exn_str e) ids i Hi).
Qed.

Lemma terminate_region_batch_failure_witness :
  dom (terminate_instances_in_region api_rejects_batch "eu-west-1" ["i-0a1"; "i-0b2"])
  = list_to_set ["i-0a1"; "i-0b2"] /\
  forall i, i ∈ ["i-0a1"; "i-0b2"] ->
    terminate_instances_in_region api_rejects_batch "eu-west-1" ["i-0a1"; "i-0b2"] !! i
    = Some ("ERROR: " +:+ "Request limit exceeded.").
Proof.
  apply (terminate_region_batch_failure api_rejects_batch "eu-west-1"
           ["i-0a1"; "i-0b2"]
           (PyExn (Some "RequestLimitExceeded") "Request limit exceeded.")).
  - discriminate.
  - reflexivity.
Defined.

(** C7, as stated, fails: when EC2 accepts a batch it reports the instance
    as ["shutting-down"], and that state name is the status the map holds. *)
Lemma termination_status_counterexample :
  ~ outcomes_as_specified ["i-0a1"]
      (terminate_instances_in_region api_shutting_down "us-east-1" ["i-0a1"]).
Proof.
  intros [_ Hst].
  specialize (Hst "i-0a1" "shutting-down").
  assert (terminate_instances_in_region api_shutting_down "us-east-1" ["i-0a1"]
          !! "i-0a1" = Some "shutting-down") as Hl.
  { unfold terminate_instances_in_region, api_shutting_down. simpl.
    unfold dict_of. simpl. apply lookup_insert_eq. }
  specialize (Hst Hl). vm_compute in Hst. discriminate.
Qed.

(** C7, amended. A termination request on a non-empty id list yields a map
    that, when the API call returns, holds for each instance id of the
    response the current-state name the response gives for it, and no other
    entry; and that, when the call raises, holds for each requested id, and
    for no other, the string ["ERROR: "] followed by the failure's text. *)
Theorem terminate_region_outcomes
    (terminate : terminate_api) (region : string) (ids : list string) :
  ids <> [] ->
  match terminate region ids with
  | Ok terminating =>
      dom (terminate_instances_in_region terminate region ids)
      = list_to_set (map fst terminating) /\
      forall i status,
        terminate_instances_in_region terminate region ids !! i = Some status ->
        (i, status) ∈ terminating
  | Raise e =>
      dom (terminate_instances_in_region terminate region ids) = list_to_set ids /\
      forall i status,
        terminate_instances_in_region terminate region ids !! i = Some status ->
        i ∈ ids /\ status = "ERROR: " +:+ exn_str e
  end.
Proof.
  intros Hne. destruct (terminate region ids) as [terminating|e] eqn:He.
  - assert (terminate_instances_in_region terminate region ids = dict_of terminating)
      as -> by (unfold terminate_instances_in_region; destruct ids; [done|]; by rewrite He).
    split; [apply dict_of_dom|]. intros i status. apply dict_of_lookup_Some.
  - rewrite (terminate_failure_results _ _ _ _ Hne He). split.
    + apply (dict_of_const_dom (fun _ => "ERROR: " +:+ exn_str e)).
    + intros i status Hl. apply dict_of_lookup_Some in Hl.
      apply list_elem_of_fmap in Hl as [j [[= -> ->] Hj]]. done.
Qed.

Lemma terminate_region_outcomes_witness :
  dom (terminate_instances_in_region api_shutting_down "us-east-1" ["i-0a1"])
  = list_to_set (map fst [("i-0a1", "shutting-down")]) /\
  forall i status,
    terminate_instances_in_region api_shutting_down "us-east-1" ["i-0a1"] !! i
    = Some status ->
    (i, status) ∈ [("i-0a1", "shutting-down")].
Proof.
  apply (terminate_region_outcomes api_shutting_down "us-east-1" ["i-0a1"]).
  discriminate.
Defined.

(** *** The scan loop *)

Lemma scan_fold worker completed st :
  foldl (scan_step worker) st completed =
  {| all_instances := all_instances st ++ concat (map (region_value worker) completed);
     region_errors := region_errors st ++ omap (region_error worker) completed;
     scan_console := scan_console st ++ map (region_line worker) completed |}.
Proof.
  revert st. induction completed as [|r rs IH]; intros st; simpl.
  - destruct st. simpl. by rewrite !app_nil_r.
  - rewrite IH. unfold scan_step, region_value, region_error, region_line.
    destruct (worker r) as [[|i l]|e]; simpl;
      rewrite <- ?app_assoc; simpl; reflexivity.
Qed.

Lemma scan_regions_closed worker completed :
  scan_regions worker completed =
  {| all_instances := concat (map (region_value worker) completed);
     region_errors := omap (region_error worker) completed;
     scan_console := map (region_line worker) completed |}.
Proof. unfold scan_regions. by rewrite scan_fold. Qed.

Lemma region_line_region worker r : scan_line_region (region_line worker r) = r.
Proof. unfold region_line. by destruct (worker r) as [[|]|]. Qed.

Lemma find_unauthorized describe region e :
  describe region = Raise e ->
  exn_code e = Some "UnauthorizedOperation" ->
  find_spot_instances_in_region describe region = Ok [].
Proof.
  intros Hd Hc. unfold find_spot_instances_in_region. by rewrite Hd, Hc.
Qed.

(** C4. A region whose [describe_instances] call raises the
    authorization-denied client error is an empty success of
    [find_spot_instances_in_region]; and a scan of two regions, of which one
    gives two instances and the other is denied, ends, in either completion
    order, with exactly those two instances and with no region error. *)
Theorem unauthorized_region_is_empty_success
    (describe : describe_api) (A B : string) (i1 i2 : instance) (e : py_exn)
    (completed : list string) :
  find_spot_instances_in_region describe A = Ok [i1; i2] ->
  describe B = Raise e ->
  exn_code e = Some "UnauthorizedOperation" ->
  Permutation completed [A; B] ->
  find_spot_instances_in_region describe B = Ok [] /\
  all_instances (scan_regions (find_spot_instances_in_region describe) completed)
  = [i1; i2] /\
  region_errors (scan_regions (find_spot_instances_in_region describe) completed)
  = [].
Proof.
  intros HA HB He Hperm.
  pose proof (find_unauthorized _ _ _ HB He) as HB'.
  split; [done|].
  rewrite scan_regions_closed. simpl.
  symmetry in Hperm. apply Permutation_length_2_inv in Hperm as [->| ->];
    simpl; unfold region_value, region_error; rewrite HA, HB'; done.
Qed.

Lemma unauthorized_region_is_empty_success_witness :
  find_spot_instances_in_region describe_two_regions "me-south-1" = Ok [] /\
  all_instances
    (scan_regions (find_spot_instances_in_region describe_two_regions)
       ["me-south-1"; "us-east-1"])
  = [instance_of "us-east-1" (sample_ec2 "i-0a1");
     instance_of "us-east-1" (sample_ec2 "i-0b2")] /\
  region_errors
    (scan_regions (find_spot_instances_in_region describe_two_regions)
       ["me-south-1"; "us-east-1"])
  = [].
Proof.
  apply (unauthorized_region_is_empty_success describe_two_regions
           "us-east-1" "me-south-1" _ _
           (PyExn (Some "UnauthorizedOperation")
              "You are not authorized to perform this operation.")).
  - reflexivity.
  - reflexivity.
  - reflexivity.
  - apply perm_swap.
Defined.

Lemma scan_errors_raised worker completed :
  map fst (omap (region_error worker) completed)
  = List.filter (fun r => match worker r with Raise _ => true | Ok _ => false end)
      completed.
Proof.
  induction completed as [|r rs IH]; [done|]. cbn [omap list_omap List.filter].
  unfold region_error at 1. destruct (worker r); cbn [map fst]; by rewrite IH.
Qed.

(** C5. Whatever the worker does in each region, and in whatever order the
    futures complete, the scan loop gives every submitted region exactly one
    outcome. It prints one line per submitted region, the line of that
    region's own outcome (a count, an empty result or the captured error).
    The aggregate list is exactly the instances of the regions whose worker
    returned, region after region in completion order, each once. The error
    list has exactly one entry, the region and the text of its exception,
    for each region whose worker raised, and none for a region whose worker
    returned. So a region that raises neither ends the loop nor removes or
    changes what the other regions contribute. *)
Theorem scan_one_outcome_per_region
    (worker : string -> result (list instance)) (regions completed : list string) :
  Permutation completed regions ->
  scan_console (scan_regions worker completed) = map (region_line worker) completed /\
  Permutation (map scan_line_region (scan_console (scan_regions worker completed)))
    regions /\
  all_instances (scan_regions worker completed)
  = concat (map (region_value worker) completed) /\
  region_errors (scan_regions worker completed)
  = omap (region_error worker) completed /\
  map fst (region_errors (scan_regions worker completed))
  = List.filter (fun r => match worker r with Raise _ => true | Ok _ => false end)
      completed /\
  (forall r msg,
     (r, msg) ∈ region_errors (scan_regions worker completed) <->
     r ∈ regions /\ exists e, worker r = Raise e /\ msg = exn_str e) /\
  (forall x,
     x ∈ all_instances (scan_regions worker completed) <->
     exists r instances, r ∈ regions /\ worker r = Ok instances /\ x ∈ instances).
Proof.
  intros Hperm. rewrite scan_regions_closed. simpl.
  split; [done|]. split; [|split; [done|split; [done|split; [|split]]]].
  - rewrite map_map.
    rewrite (map_ext _ (fun r => r) (region_line_region worker)), map_id. done.
  - apply scan_errors_raised.
  - intros r msg. rewrite list_elem_of_omap. split.
    + intros (r' & Hr' & Herr). unfold region_error in Herr.
      destruct (worker r') as [instances|e] eqn:Hw; [done|].
      injection Herr as <- <-. split; [by rewrite <- Hperm|]. by exists e.
    + intros (Hr & e & Hw & ->). exists r. split; [by rewrite Hperm|].
      unfold region_error. by rewrite Hw.
  - intros x. split.
    + intros Hx%list_elem_of_In%in_concat. destruct Hx as (l & Hl & Hx).
      apply in_map_iff in Hl as (r & <- & Hr%list_elem_of_In).
      unfold region_value in Hx. destruct (worker r) as [instances|e] eqn:Hw; [|done].
      exists r, instances. split; [by rewrite <- Hperm|].
      split; [done|by apply list_elem_of_In].
    + intros (r & instances & Hr & Hw & Hx).
      apply list_elem_of_In, in_concat. exists instances. split.
      * apply in_map_iff. exists r. split.
        -- unfold region_value. by rewrite Hw.
        -- apply list_elem_of_In. by rewrite Hperm.
      * by apply list_elem_of_In.
Qed.

(** A scan in which one region raises, one is denied and one has two
    instances: the throttled region is the one error, and the two instances
    are found. *)
Lemma scan_one_outcome_per_region_witness :
  region_errors
    (scan_regions (find_spot_instances_in_region describe_broken_region)
       (rev AWS_REGIONS))
  = [("ap-south-1", "Request limit exceeded.")] /\
  map id
    (all_instances
       (scan_regions (find_spot_instances_in_region describe_broken_region)
          (rev AWS_REGIONS)))
  = ["i-0a1"; "i-0b2"] /\
  length
    (scan_console
       (scan_regions (find_spot_instances_in_region describe_broken_region)
          (rev AWS_REGIONS)))
  = length AWS_REGIONS.
Proof.
  destruct (scan_one_outcome_per_region
              (find_spot_instances_in_region describe_broken_region)
              AWS_REGIONS (rev AWS_REGIONS))
    as (Hlines & _ & Hall & Herr & _).
  - symmetry. apply Permutation_rev.
  - rewrite Hlines, Hall, Herr. repeat split; vm_compute; reflexivity.
Defined.

(** *** Grouping and reconciliation *)

Lemma group_add_keys groups r i :
  map fst (group_add r i groups) =
  if decide (r ∈ map fst groups) then map fst groups else map fst groups ++ [r].
Proof.
  induction groups as [|[r' ids] g IH]; simpl; [done|].
  destruct (String.eqb_spec r' r) as [->|Hne]; simpl.
  - rewrite decide_True; [done|]. apply list_elem_of_here.
  - rewrite IH. destruct (decide (r ∈ map fst g)) as [Hin|Hnin].
    + rewrite decide_True; [done|]. by apply list_elem_of_further.
    + rewrite decide_False; [done|].
      intros [?|?]%elem_of_cons; [by subst|done].
Qed.

Lemma group_add_NoDup groups r i :
  NoDup (map fst groups) -> NoDup (map fst (group_add r i groups)).
Proof.
  intros Hnd. rewrite group_add_keys. case_decide; [done|].
  apply NoDup_app. split; [done|]. split.
  - intros x Hx [->|[]%elem_of_nil]%elem_of_cons. done.
  - apply NoDup_singleton.
Qed.

Lemma group_add_ids groups r i x :
  x ∈ concat (map snd (group_add r i groups)) <->
  x ∈ concat (map snd groups) \/ x = i.
Proof.
  induction groups as [|[r' ids] g IH]; simpl.
  - rewrite list_elem_of_singleton. split; [by right|].
    by intros [[]%elem_of_nil|].
  - destruct (String.eqb_spec r' r) as [->|Hne]; simpl.
    + rewrite !elem_of_app, list_elem_of_singleton. tauto.
    + rewrite !elem_of_app, IH. tauto.
Qed.

Lemma groups_get_other r ids g r' :
  r <> r' -> groups_get ((r, ids) :: g) r' = groups_get g r'.
Proof. intros Hne. simpl. by destruct (String.eqb_spec r r'). Qed.

Lemma batch_ids_concat groups :
  NoDup (map fst groups) -> batch_ids groups = concat (map snd groups).
Proof.
  unfold batch_ids. induction groups as [|[r ids] g IH]; simpl; [done|].
  intros [Hnin Hnd]%NoDup_cons. rewrite String.eqb_refl. f_equal.
  rewrite <- (IH Hnd). f_equal. apply map_ext_in.
  intros r' Hr'. destruct (String.eqb_spec r r') as [->|Hne]; [|done].
  exfalso. apply Hnin. by apply list_elem_of_In.
Qed.

Lemma termination_groups_fold all groups :
  NoDup (map fst groups) ->
  let groups' :=
    foldl (fun groups inst => group_add (region inst) (id inst) groups) groups all in
  NoDup (map fst groups') /\
  forall x, x ∈ concat (map snd groups') <->
            x ∈ concat (map snd groups) \/ x ∈ map id all.
Proof.
  revert groups. induction all as [|inst all IH]; intros groups Hnd; simpl.
  - split; [done|]. intros x. split; [by left|]. by intros [|[]%elem_of_nil].
  - destruct (IH _ (group_add_NoDup groups (region inst) (id inst) Hnd)) as [Hnd' Hx].
    split; [done|]. intros x. rewrite Hx, group_add_ids, elem_of_cons. tauto.
Qed.

(** Every instance the scan found is in the batch of its region. *)
Lemma batch_ids_complete all inst :
  inst ∈ all -> id inst ∈ batch_ids (termination_groups all).
Proof.
  intros Hin.
  destruct (termination_groups_fold all [] (NoDup_nil_2 : NoDup (map fst [])))
    as [Hnd Hx].
  unfold termination_groups. rewrite (batch_ids_concat _ Hnd).
  apply Hx. right. apply list_elem_of_fmap. by exists inst.
Qed.

Lemma terminated_ids_empty all :
  terminated_ids all (termination_groups all) = ∅.
Proof.
  unfold terminated_ids.
  assert (filter (fun inst => id inst ∉ batch_ids (termination_groups all)) all = [])
    as ->; [|done].
  assert (forall l, l ⊆ all ->
            filter (fun inst => id inst ∉ batch_ids (termination_groups all)) l = [])
    as Hall.
  { induction l as [|inst l IH]; intros Hsub; [done|].
    rewrite filter_cons. rewrite decide_False.
    - apply IH. intros x Hx. apply Hsub. by apply list_elem_of_further.
    - intros Hn. apply Hn, batch_ids_complete, Hsub, list_elem_of_here. }
  by apply Hall.
Qed.

Section ReconcileFacts.
Context {entry : Type} (entry_id : entry -> string).

(** The filter of the reconciliation keeps every persisted entry. *)
Lemma remaining_instances_all all (current_instances : list entry) :
  remaining_instances entry_id all (termination_groups all) current_instances
  = current_instances.
Proof.
  unfold remaining_instances. rewrite terminated_ids_empty.
  induction current_instances as [|e l IH]; [done|].
  rewrite filter_cons, decide_True by set_solver. by rewrite IH.
Qed.

Lemma reconcile_keeps_all c all (current_instances : list entry) :
  reconcile entry_id c all current_instances =
  if decide (0 < terminated_count c) then Some current_instances else None.
Proof. unfold reconcile. by rewrite remaining_instances_all. Qed.

(** Whenever the command saves the persisted list, it saves the list it
    loaded. *)
Lemma cmd_nuke_saves_what_it_loaded (env : nuke_env) force scan counts saved :
  cmd_nuke entry_id env force = Nuked scan counts (Some saved) ->
  saved = load_instances env.
Proof.
  unfold cmd_nuke, nuke_terminate_phase.
  destruct (negb (check_aws_auth env)); [done|].
  destruct (negb force && negb (String.eqb (confirmation env) "DESTROY ALL SPOTS"));
    [done|].
  destruct (all_instances (scan_regions _ _)) as [|inst all]; [done|].
  destruct (negb force && negb (String.eqb (final_confirm env) "YES")); [done|].
  rewrite reconcile_keeps_all. intros [= _ _ H]. by case_decide; simplify_eq.
Qed.
End ReconcileFacts.

(** C1, on the code. In a forced run one spot instance is found, the batch
    of its region is submitted and EC2 reports the instance as shutting
    down, so one instance counts as terminated; the persisted list held that
    instance and another one. The list [cmd_nuke] saves still holds both:
    the id of the batch is not removed. *)
Theorem nuke_keeps_batch_ids_in_state :
  cmd_nuke id env_one_instance true
  = Nuked
      (scan_regions (find_spot_instances_in_region describe_one_instance) AWS_REGIONS)
      (TermCounts 1 0)
      (Some [instance_of "us-east-1" (sample_ec2 "i-0a1");
             sample_instance "i-0c3" "eu-west-1"]).
Proof.
  unfold cmd_nuke. cbn [env_one_instance check_aws_auth negb andb describe
                          scan_completed terminate terminate_completed load_instances].
  assert (all_instances
            (scan_regions (find_spot_instances_in_region describe_one_instance)
               AWS_REGIONS)
          = [instance_of "us-east-1" (sample_ec2 "i-0a1")]) as Hall
    by (rewrite scan_regions_closed; reflexivity).
  rewrite Hall. unfold nuke_terminate_phase. rewrite reconcile_keeps_all.
  assert (terminate_regions api_shutting_down
            (termination_groups [instance_of "us-east-1" (sample_ec2 "i-0a1")])
            ["us-east-1"]
          = TermCounts 1 0) as ->; [|done].
  unfold terminate_regions, terminate_step. simpl.
  unfold dict_of. simpl. rewrite insert_empty.
  unfold count_success. rewrite map_size_singleton, map_to_list_singleton. done.
Qed.

End NukeFacts.

(** ** The cluster manager *)
Section ManagerFacts.
Import Manager.

(** *** Strings *)

Lemma prefix_app (p s : string) : String.prefix p (p +:+ s) = true.
Proof.
  induction p as [|c p IH]; simpl; [by destruct s|].
  destruct (Ascii.ascii_dec c c); [done|congruence].
Qed.

Lemma str_in_app (needle pre post : string) :
  str_in needle (pre +:+ needle +:+ post) = true.
Proof.
  induction pre as [|c pre IH].
  - change ("" +:+ needle +:+ post) with (needle +:+ post).
    pose proof (prefix_app needle post) as Hp.
    destruct (needle +:+ post); cbn [str_in]; by rewrite Hp.
  - change (String c pre +:+ needle +:+ post)
      with (String c (pre +:+ needle +:+ post)).
    cbn [str_in]. rewrite IH. by destruct (String.prefix needle _).
Qed.

Lemma string_app_assoc (a b c : string) : (a +:+ b) +:+ c = a +:+ b +:+ c.
Proof.
  induction a as [|x a IH]; [done|].
  change (String x (a +:+ b) +:+ c = String x (a +:+ b +:+ c)).
  change (String x ((a +:+ b) +:+ c) = String x (a +:+ b +:+ c)).
  by rewrite IH.
Qed.

(** *** [_parse_duration_to_seconds] *)

Lemma re_search_without_backslash (unit : ascii) (duration : string) :
  str_in "\" duration = false ->
  re_search (duration_pattern unit) duration = None.
Proof.
  induction duration as [|c rest IH]; [done|].
  cbn [str_in String.prefix].
  destruct (Ascii.ascii_dec "\" c) as [<-|Hne]; [by destruct rest|].
  intros Hrest. cbn [re_search re_match duration_pattern re_run].
  destruct (Ascii.eqb_spec "\" c) as [|_]; [done|]. by apply IH.
Qed.

(** A duration in which no backslash occurs parses to 0 seconds. *)
Lemma parse_duration_without_backslash (duration : string) :
  str_in "\" duration = false -> _parse_duration_to_seconds duration = Ok 0%N.
Proof.
  intros H. unfold _parse_duration_to_seconds.
  by rewrite !re_search_without_backslash.
Qed.

(** C2, on the code. For the three durations the specification lists, the
    parser finds no component, because its patterns look for a backslash,
    and returns 0 where 330, 8100 and 45 seconds are specified. *)
Theorem parse_duration_finds_no_component :
  _parse_duration_to_seconds "5m30s" = Ok 0%N /\
  _parse_duration_to_seconds "2h15m" = Ok 0%N /\
  _parse_duration_to_seconds "45s" = Ok 0%N.
Proof. repeat split; reflexivity. Qed.

(** A duration in which a pattern finds its backslash makes the parser
    raise the [ValueError] of [int], whose text shows the [repr] of the
    group. *)
Lemma parse_duration_backslash_raises :
  _parse_duration_to_seconds "\ddh"
  = Raise (PyExn None "invalid literal for int() with base 10: '\\dd'").
Proof. reflexivity. Qed.

(** *** [run_sky_cmd] *)

Lemma timeout_message_timed_out (cmd_str : string) (timeout : Z) :
  str_in "timed out"
    ("Command 'sky " +:+ cmd_str +:+ "' timed out after " +:+ pretty timeout
       +:+ " seconds") = true.
Proof.
  replace ("Command 'sky " +:+ cmd_str +:+ "' timed out after " +:+ pretty timeout
             +:+ " seconds")
    with (("Command 'sky " +:+ cmd_str +:+ "' ") +:+ "timed out"
            +:+ (" after " +:+ pretty timeout +:+ " seconds")).
  - apply str_in_app.
  - rewrite !string_app_assoc. reflexivity.
Qed.

(** What a raised exception of the gateway comes from: a log write or a
    debug print. *)
Lemma docker_handler_raise h class e raised :
  docker_handler h class e = Raise raised ->
  exists level message class', log h level message = Some (class', raised).
Proof.
  unfold docker_handler. intros H.
  destruct (log h "ERROR" _) as [[class' e']|] eqn:Hlog; [|done].
  injection H as <-. by eexists _, _, _.
Qed.

Lemma logged_raise h level message k raised :
  logged h level message k = Raise raised ->
  (exists level' message' class, log h level' message' = Some (class, raised)) \/
  k = Raise raised.
Proof.
  unfold logged. destruct (log h level message) as [[class e]|]; [|by right].
  intros H%docker_handler_raise. by left.
Qed.

Lemma ran_raise h argv k raised :
  ran h argv k = Raise raised ->
  (exists level message class, log h level message = Some (class, raised)) \/
  exists returncode stdout stderr, k returncode stdout stderr = Raise raised.
Proof.
  unfold ran. destruct (subprocess_run h argv) as [rc out err|class e].
  - intros H. right. by exists rc, out, err.
  - intros H%docker_handler_raise. by left.
Qed.

Lemma located_raise h place k raised :
  located h place k = Raise raised ->
  (exists level message class, log h level message = Some (class, raised)) \/
  exists path, k path = Raise raised.
Proof.
  unfold located. destruct place as [path|class e].
  - intros H. right. by exists path.
  - intros H%docker_handler_raise. by left.
Qed.

Lemma ensure_docker_container_raise h self raised :
  ensure_docker_container h self = Raise raised ->
  exists level message class, log h level message = Some (class, raised).
Proof.
  unfold ensure_docker_container.
  intros [H|(rc & out & err & H)]%ran_raise; [done|].
  destruct (nonempty (strip out)); [done|].
  apply logged_raise in H as [H|H]; [done|].
  apply ran_raise in H as [H|(rc1 & out1 & err1 & H)]; [done|].
  apply located_raise in H as [H|(home & H)]; [done|].
  apply located_raise in H as [H|(cwd & H)]; [done|].
  apply ran_raise in H as [H|(rc2 & out2 & err2 & H)]; [done|].
  destruct (rc2 =? 0)%Z.
  - by apply logged_raise in H as [H|H].
  - apply logged_raise in H as [H|H]; [done|].
    destruct (nonempty err2); [|done].
    by apply logged_raise in H as [H|H].
Qed.

(** When the log writes succeed the container check returns, and it
    returns [False] when its first command raises. *)
Lemma ensure_docker_container_returns h self :
  (forall level message, log h level message = None) ->
  exists available,
    ensure_docker_container h self = Ok available /\
    (forall class e,
       subprocess_run h (docker_ps_argv self) = ProcRaised class e ->
       available = false).
Proof.
  intros Hlog.
  unfold ensure_docker_container, ran, located, logged, docker_handler.
  destruct (subprocess_run h (docker_ps_argv self)) as [rc out err|class e].
  - destruct (nonempty (strip out)); [by exists true|]. rewrite Hlog.
    destruct (subprocess_run h ["docker"; "rm"; docker_container self])
      as [rc1 out1 err1|class1 e1]; [|rewrite Hlog; by exists false].
    destruct (home h) as [home|class1 e1]; [|rewrite Hlog; by exists false].
    destruct (cwd h) as [cwd|class1 e1]; [|rewrite Hlog; by exists false].
    destruct (subprocess_run h (docker_run_argv home cwd self))
      as [rc2 out2 err2|class2 e2]; [|rewrite Hlog; by exists false].
    destruct (rc2 =? 0)%Z; [rewrite Hlog; by exists true|].
    rewrite Hlog. destruct (nonempty err2); [rewrite Hlog|]; by exists false.
  - rewrite Hlog. exists false. split; [done|]. done.
Qed.

(** C6, as stated, fails: the container is up and [sky status] exits with
    code 1 without writing to its standard error; the gateway reports the
    failure with an empty error text. *)
Lemma gateway_empty_error_counterexample :
  exists r,
    run_sky_cmd (host_container_up (Completed 1 "" "")) (new_manager false)
      ["status"] 10 = Ok r /\
    ~ failure_as_specified r.
Proof.
  exists (false, "", ""). split; [reflexivity|].
  intros [_ Hne]. apply Hne. reflexivity.
Qed.

(** It fails in a second way: without a [docker] program and with a log
    file that cannot be written, the exception of the log write in the
    handler of the container check leaves the gateway. *)
Lemma gateway_raises_when_log_fails :
  run_sky_cmd host_log_denied (new_manager false) ["status"] 10
  = Raise (PyExn None "[Errno 13] Permission denied: 'cluster-deploy.log'").
Proof. reflexivity. Qed.

(** C6, amended. The gateway returns a triple (success, stdout, stderr)
    that has no elapsed time, and an exception leaves it only when one of
    its own log writes or debug prints raised that exception. When these
    writes succeed it returns: success is true exactly when the container
    is available and the command exits with code 0; when the container
    cannot be started, as when the docker program is not found, the error
    text is the fixed text of that failure; on a non-zero exit it is what
    the process wrote to its standard error, which may be empty; on a
    timeout it is the message that names the command and contains the words
    timed out; and when running the command raises any other exception it
    is the text of that exception. *)
Theorem run_sky_cmd_failures
    (h : host) (self : manager) (args : list string) (timeout : Z) :
  (forall raised,
     run_sky_cmd h self args timeout = Raise raised ->
     (exists level message class, log h level message = Some (class, raised)) \/
     (log_to_console self = true /\
      exists point, debug_print h point = Some raised)) /\
  ((forall level message, log h level message = None) ->
   (forall point, debug h self point = None) ->
   exists available,
     ensure_docker_container h self = Ok available /\
     (forall class e,
        subprocess_run h (docker_ps_argv self) = ProcRaised class e ->
        available = false) /\
     (available = false ->
        run_sky_cmd h self args timeout = Ok (false, "", "Failed to start container")) /\
     (available = true ->
        match subprocess_run h (sky_argv self args) with
        | Completed returncode stdout stderr =>
            run_sky_cmd h self args timeout = Ok ((returncode =? 0)%Z, stdout, stderr)
        | ProcRaised TimeoutExpired _ =>
            run_sky_cmd h self args timeout =
              Ok (false, "",
                  "Command 'sky " +:+ String.concat " " args +:+ "' timed out after "
                    +:+ pretty timeout +:+ " seconds") /\
            str_in "timed out"
              ("Command 'sky " +:+ String.concat " " args +:+ "' timed out after "
                 +:+ pretty timeout +:+ " seconds") = true
        | ProcRaised _ e =>
            run_sky_cmd h self args timeout = Ok (false, "", exn_str e)
        end) /\
     (forall stdout stderr,
        run_sky_cmd h self args timeout = Ok (true, stdout, stderr) <->
        available = true /\
        subprocess_run h (sky_argv self args) = Completed 0 stdout stderr)).
Proof.
  split.
  - intros raised. unfold run_sky_cmd.
    destruct (ensure_docker_container h self) as [[|]|e] eqn:Hens.
    + assert (forall point e, debug h self point = Some e ->
                log_to_console self = true /\
                exists point', debug_print h point' = Some e) as Hdebug.
      { unfold debug. intros point e. destruct (log_to_console self); [|done].
        intros H. split; [done|]. by exists point. }
      destruct (debug h self DebugRunning) as [e0|] eqn:H0.
      { intros [= <-]. right. by eapply Hdebug. }
      destruct (debug h self DebugFailed) as [e3|] eqn:H3.
      * destruct (subprocess_run h (sky_argv self args)) as [rc out err|[| |] e].
        -- destruct (debug h self DebugCompleted) as [e1|]; [|done].
           intros [= <-]. right. by eapply Hdebug.
        -- destruct (debug h self DebugTimedOut) as [e2|] eqn:H2; [|done].
           intros [= <-]. right. by eapply Hdebug.
        -- intros [= <-]. right. by eapply Hdebug.
        -- intros [= <-]. right. by eapply Hdebug.
      * destruct (subprocess_run h (sky_argv self args)) as [rc out err|[| |] e].
        -- by destruct (debug h self DebugCompleted).
        -- destruct (debug h self DebugTimedOut) as [e2|] eqn:H2; [|done].
           intros [= <-]. right. by eapply Hdebug.
        -- done.
        -- done.
    + done.
    + intros [= <-]. left. by apply (ensure_docker_container_raise h self).
  - intros Hlog Hdebug.
    destruct (ensure_docker_container_returns h self Hlog) as (available & Hens & Hps).
    exists available. split; [done|]. split; [done|].
    unfold run_sky_cmd. rewrite Hens, !Hdebug.
    destruct available.
    + split; [done|]. split.
      * intros _.
        destruct (subprocess_run h (sky_argv self args)) as [rc out err|[| |] e];
          [done| |done|done].
        split; [done|]. apply timeout_message_timed_out.
      * intros stdout stderr.
        destruct (subprocess_run h (sky_argv self args)) as [rc out err|[| |] e].
        -- split.
           ++ intros [= Hrc -> ->]. apply Z.eqb_eq in Hrc as ->. done.
           ++ intros [_ [= -> -> ->]]. done.
        -- split; [done|]. by intros [_ ?].
        -- split; [done|]. by intros [_ ?].
        -- split; [done|]. by intros [_ ?].
    + split; [done|]. split; [done|]. intros stdout stderr. split; [done|].
      by intros [? _].
Qed.

Lemma run_sky_cmd_failures_witness :
  run_sky_cmd (host_container_up sky_timeout) (new_manager true)
    ["logs"; "sky-7f3a"; "--tail=100"] 20
  = Ok (false, "", "Command 'sky logs sky-7f3a --tail=100' timed out after 20 seconds") /\
  str_in "timed out"
    "Command 'sky logs sky-7f3a --tail=100' timed out after 20 seconds" = true.
Proof.
  destruct (proj2 (run_sky_cmd_failures (host_container_up sky_timeout)
                     (new_manager true) ["logs"; "sky-7f3a"; "--tail=100"] 20))
    as (available & Hens & _ & _ & Hup & _).
  - reflexivity.
  - reflexivity.
  - injection Hens as <-. exact (Hup eq_refl).
Defined.

(** *** The node table *)

Lemma last_n_length {A} (n : nat) (l : list A) : length (last_n n l) <= n.
Proof. unfold last_n. rewrite length_drop. lia. Qed.

(** Appending to the last five and popping the first when there are six is
    taking the last five of the longer list. *)
Lemma last_n_snoc {A} (l : list A) (x : A) :
  (if (5 <? length (last_n 5 l ++ [x]))%nat
   then tail (last_n 5 l ++ [x]) else last_n 5 l ++ [x])
  = last_n 5 (l ++ [x]).
Proof.
  unfold last_n. rewrite !length_app, length_drop. simpl.
  destruct (decide (length l < 5)) as [Hlt|Hge].
  - replace (length l - 5) with 0 by lia.
    replace (length l + 1 - 5) with 0 by lia. simpl.
    destruct (Nat.ltb_spec 5 (length l - 0 + 1)); [lia|done].
  - destruct (Nat.ltb_spec 5 (length l - (length l - 5) + 1)); [|lia].
    replace (length l + 1 - 5) with (S (length l - 5)) by lia.
    rewrite <- (drop_app_le l [x] (length l - 5)) by lia.
    generalize (l ++ [x]) (length l - 5). clear.
    intros l n. revert l. induction n as [|n IH]; intros [|y l]; simpl; done.
Qed.

Lemma nodes_after_snoc events node_info :
  nodes_after (events ++ [node_info]) = record_event (nodes_after events) node_info.
Proof. unfold nodes_after. by rewrite foldl_app. Qed.

Lemma messages_of_snoc node_id' events node_info :
  messages_of node_id' (events ++ [node_info]) =
  if decide (node_id node_info = node_id')
  then messages_of node_id' events ++ [message node_info]
  else messages_of node_id' events.
Proof.
  unfold messages_of. rewrite filter_app, map_app.
  rewrite filter_cons, filter_nil. case_decide; simpl; [done|].
  by rewrite app_nil_r.
Qed.

(** The buffer of a node is the last five of the messages recorded for it;
    a node has an entry once it has a message. *)
Lemma nodes_after_recent events node_id' :
  recent_messages <$> (nodes_after events !! node_id') =
  match messages_of node_id' events with
  | [] => None
  | messages => Some (last_n 5 messages)
  end.
Proof.
  induction events as [|node_info events IH] using rev_ind.
  - unfold nodes_after. simpl. by rewrite lookup_empty.
  - rewrite nodes_after_snoc, messages_of_snoc. unfold record_event.
    destruct (decide (node_id node_info = node_id')) as [<-|Hne].
    + rewrite lookup_insert_eq. simpl.
      assert (recent_messages
                match nodes_after events !! node_id node_info with
                | Some entry => entry
                | None =>
                    {| entry_node := node node_info;
                       entry_rank := rank node_info;
                       entry_ip := ip node_info;
                       recent_messages := [];
                       entry_timestamp := timestamp node_info |}
                end
              = last_n 5 (messages_of (node_id node_info) events)) as ->.
      { destruct (nodes_after events !! node_id node_info) as [entry|];
          destruct (messages_of (node_id node_info) events);
          cbn [fmap option_fmap option_map] in IH; try discriminate.
        - by injection IH as ->.
        - done. }
      rewrite last_n_snoc.
      by destruct (messages_of (node_id node_info) events).
    + by rewrite lookup_insert_ne.
Qed.

(** C9. In a monitoring session the buffer of recent messages of a node
    never holds more than five messages, and it holds the last five of the
    messages recorded for the node, in the order they came; so after seven
    messages for one node it holds the third to the seventh. *)
Theorem recent_messages_bounded_fifo :
  (forall events node_id' entry,
     nodes_after events !! node_id' = Some entry ->
     length (recent_messages entry) <= 5 /\
     recent_messages entry = last_n 5 (messages_of node_id' events)) /\
  (forall events node_id',
     length events = 7 ->
     Forall (fun node_info => node_id node_info = node_id') events ->
     exists entry,
       nodes_after events !! node_id' = Some entry /\
       recent_messages entry = drop 2 (map message events)).
Proof.
  assert (forall events node_id' entry,
            nodes_after events !! node_id' = Some entry ->
            recent_messages entry = last_n 5 (messages_of node_id' events)) as Hrecent.
  { intros events nid entry Hl.
    pose proof (nodes_after_recent events nid) as H. rewrite Hl in H. simpl in H.
    destruct (messages_of nid events); congruence. }
  split.
  - intros events nid entry Hl. rewrite (Hrecent _ _ _ Hl).
    split; [apply last_n_length|done].
  - intros events nid Hlen Hall.
    assert (messages_of nid events = map message events) as Hm.
    { unfold messages_of. f_equal. clear Hlen.
      induction Hall as [|ev evs Hev _ IH]; [done|].
      by rewrite filter_cons, decide_True, IH. }
    pose proof (nodes_after_recent events nid) as H. rewrite Hm in H.
    destruct (nodes_after events !! nid) as [entry|] eqn:Hl.
    + exists entry. split; [done|].
      rewrite (Hrecent _ _ _ Hl), Hm. unfold last_n.
      by rewrite length_map, Hlen.
    + destruct events; [done|]. done.
Qed.

Lemma recent_messages_bounded_fifo_witness :
  exists entry,
    nodes_after seven_events !! "worker8-8" = Some entry /\
    recent_messages entry = ["step 3"; "step 4"; "step 5"; "step 6"; "step 7"].
Proof.
  apply (proj2 recent_messages_bounded_fifo seven_events "worker8-8").
  - reflexivity.
  - repeat constructor.
Defined.

(** *** The streaming monitor *)

Lemma Qltb_lt (x y : Q) : Qltb x y = true <-> (x < y)%Q.
Proof.
  unfold Qltb. rewrite negb_true_iff. split.
  - intros H. apply Qnot_le_lt. intros Hle%Qle_bool_iff. congruence.
  - intros H. destruct (Qle_bool y x) eqn:E; [|done].
    apply Qle_bool_iff in E. exfalso. by apply (Qlt_not_le x y).
Qed.

Lemma Qltb_ge (x y : Q) : Qltb x y = false <-> (y <= x)%Q.
Proof.
  unfold Qltb. rewrite negb_false_iff. apply Qle_bool_iff.
Qed.

(** A poll that raises leaves the variables of the loop as they were. *)
Lemma tick_status_raises sky job_name st e :
  sky ["status"] = Raise e -> tick sky job_name st = st.
Proof. intros H. unfold tick, poll, bind, call. by rewrite H. Qed.

(** From its [k]-th test on, the loop runs the ticks up to the first test
    [n] at which the ceiling is reached, and then shows the timeout panel. *)
Lemma monitor_loop_timeout clock start_time sky job_name n :
  (timeout <= clock n - start_time)%Q ->
  (forall j, j < n -> (clock j - start_time < timeout)%Q) ->
  (forall j st, j < n -> completion_detected st = false ->
     completion_detected (tick (sky j) job_name st) = false) ->
  forall fuel k st,
    k <= n -> n - k < fuel -> completion_detected st = false ->
    monitor_loop fuel clock start_time sky job_name k st = Some (MonitoringTimeout, n).
Proof.
  intros Hn Hbefore Hquiet. induction fuel as [|fuel IH]; intros k st Hk Hfuel Hst.
  - lia.
  - simpl. rewrite Hst. simpl. rewrite andb_true_r.
    destruct (decide (k = n)) as [->|Hne].
    + apply Qltb_ge in Hn. by rewrite Hn.
    + assert (k < n) as Hlt by lia.
      pose proof (Hbefore k Hlt) as Hb. apply Qltb_lt in Hb. rewrite Hb.
      apply IH; [lia|lia|]. by apply Hquiet.
Qed.

(** The first test at which the elapsed time has reached the ceiling. *)
Lemma first_test_at_ceiling (clock : nat -> Q) (start_time : Q) (N : nat) :
  (timeout <= clock N - start_time)%Q ->
  exists n, n <= N /\ (timeout <= clock n - start_time)%Q /\
            forall j, j < n -> (clock j - start_time < timeout)%Q.
Proof.
  induction N as [|N IH]; intros HN.
  - exists 0. split; [lia|]. split; [done|]. intros j Hj. lia.
  - destruct (Qlt_le_dec (clock N - start_time) timeout) as [Hlt|Hle].
    + assert (forall m, m <= S N ->
                (exists n, n <= m /\ (timeout <= clock n - start_time)%Q /\
                           forall j, j < n -> (clock j - start_time < timeout)%Q) \/
                (forall j, j < m -> (clock j - start_time < timeout)%Q)) as Hsearch.
      { induction m as [|m IHM]; intros HM.
        - right. intros j Hj. lia.
        - destruct (IHM ltac:(lia)) as [(n & Hn & Hc & Hb)|Hall].
          + left. exists n. split; [lia|done].
          + destruct (Qlt_le_dec (clock m - start_time) timeout) as [HltM|HleM].
            * right. intros j Hj.
              destruct (decide (j = m)) as [->|]; [done|]. apply Hall. lia.
            * left. exists m. split; [lia|]. split; [done|]. exact Hall. }
      destruct (Hsearch (S N) ltac:(lia)) as [(n & Hn & Hc & Hb)|Hall].
      * exists n. split; [lia|done].
      * exists (S N). split; [lia|]. split; [done|]. exact Hall.
    + destruct (IH Hle) as (n & Hn & Hc & Hb).
      exists n. split; [lia|done].
Qed.

(** With a sleep of three seconds in each tick, the [k]-th test is at least
    [3 k] seconds after the first. *)
Lemma clock_advances (clock : nat -> Q) :
  (forall k, clock k + 3 <= clock (S k))%Q ->
  forall k, (clock 0%nat + inject_Z (3 * Z.of_nat k) <= clock k)%Q.
Proof.
  intros Hsleep. induction k as [|k IH].
  - change (inject_Z (3 * Z.of_nat 0)) with 0%Q. lra.
  - pose proof (Hsleep k) as Hk.
    assert (inject_Z (3 * Z.of_nat (S k)) == inject_Z (3 * Z.of_nat k) + 3)%Q as ->.
    { rewrite Nat2Z.inj_succ, Z.mul_succ_r, inject_Z_plus. reflexivity. }
    lra.
Qed.

(** With a sleep of three seconds in each tick the ceiling is reached at
    the 400th test at the latest. *)
Lemma sleeping_clock_reaches_ceiling (clock : nat -> Q) (start_time : Q) :
  (start_time <= clock 0%nat)%Q ->
  (forall k, clock k + 3 <= clock (S k))%Q ->
  (timeout <= clock 400%nat - start_time)%Q.
Proof.
  intros Hstart Hsleep.
  pose proof (clock_advances clock Hsleep 400) as H.
  change (inject_Z (3 * Z.of_nat 400)) with timeout in H. lra.
Qed.

(** C10. When the elapsed time reaches the ceiling of 1200 seconds at some
    test of the loop condition, and no tick before it detects completion,
    whether its polls return, fail or raise, the loop runs its ticks up to
    the first test at which the elapsed time has reached the ceiling, ends
    there, and the function shows the timeout panel and returns. *)
Theorem monitor_times_out_at_ceiling
    (clock : nat -> Q) (start_time : Q) (sky : nat -> sky_oracle) (job_name : string)
    (N : nat) :
  (timeout <= clock N - start_time)%Q ->
  (forall k st, k < N -> completion_detected st = false ->
     completion_detected (tick (sky k) job_name st) = false) ->
  exists n,
    n <= N /\
    (timeout <= clock n - start_time)%Q /\
    (forall k, k < n -> (clock k - start_time < timeout)%Q) /\
    forall fuel, n < fuel ->
      _monitor_deployment_progress_streaming fuel clock start_time sky job_name
      = Some (MonitoringTimeout, n).
Proof.
  intros HN Hquiet.
  destruct (first_test_at_ceiling clock start_time N HN) as (n & Hn & Hc & Hb).
  exists n. split; [done|]. split; [done|]. split; [done|].
  intros fuel Hfuel. unfold _monitor_deployment_progress_streaming.
  apply (monitor_loop_timeout clock start_time sky job_name n Hc Hb); try done; try lia.
  intros j st Hj. apply Hquiet. lia.
Qed.

Lemma monitor_times_out_at_ceiling_witness :
  exists n,
    n <= 400 /\
    (timeout <= clock_every_3s n - 0)%Q /\
    (forall k, k < n -> (clock_every_3s k - 0 < timeout)%Q) /\
    forall fuel, n < fuel ->
      _monitor_deployment_progress_streaming fuel clock_every_3s 0
        sky_always_raises "amauo-cluster"
      = Some (MonitoringTimeout, n).
Proof.
  apply (monitor_times_out_at_ceiling clock_every_3s 0 sky_always_raises
           "amauo-cluster" 400).
  - unfold clock_every_3s, timeout, Qle. simpl. lia.
  - intros k st _ Hst. exact Hst.
Defined.

(** The other end of the loop: the first tick sees the job as succeeded, and
    the second test ends the loop with the completion panel. *)
Lemma monitor_completes_on_succeeded :
  _monitor_deployment_progress_streaming 10 clock_every_3s 0 sky_job_succeeded
    "amauo-cluster"
  = Some (MonitoringComplete, 1).
Proof. vm_compute. reflexivity. Qed.

(** Without a [docker] program the gateway reports that the container
    cannot be started. *)
Lemma gateway_without_docker :
  run_sky_cmd host_without_docker (new_manager false) ["status"] 10
  = Ok (false, "", "Failed to start container").
Proof. reflexivity. Qed.

(** *** The pattern matcher *)

Lemma app_cons (c : ascii) (w rest : string) :
  String c w +:+ rest = String c (w +:+ rest).
Proof. reflexivity. Qed.

Lemma app_empty (s : string) : "" +:+ s = s.
Proof. reflexivity. Qed.

Lemma string_length_app (a b : string) :
  String.length (a +:+ b) = String.length a + String.length b.
Proof.
  induction a as [|c a IH]; [done|]. rewrite app_cons. simpl. by rewrite IH.
Qed.

Lemma take_drop_str (j : nat) (s : string) : take_str j s +:+ drop_str j s = s.
Proof.
  revert s. induction j as [|j IH]; intros [|c s]; simpl; try done.
  rewrite app_cons. by rewrite IH.
Qed.

Lemma drop_str_app (w rest : string) : drop_str (String.length w) (w +:+ rest) = rest.
Proof. induction w as [|c w IH]; [by destruct rest|]. by rewrite app_cons. Qed.

Lemma take_str_length_app (w rest : string) :
  take_str (String.length w) (w +:+ rest) = w.
Proof.
  induction w as [|c w IH]; [by destruct rest|].
  rewrite app_cons. simpl. by rewrite IH.
Qed.

(** The text of a group, from the two marks around it. *)
Lemma take_str_group (w rest : string) :
  take_str (String.length (w +:+ rest) - String.length rest) (w +:+ rest) = w.
Proof.
  rewrite string_length_app.
  replace (String.length w + String.length rest - String.length rest)
    with (String.length w) by lia.
  apply take_str_length_app.
Qed.

Lemma take_span (cls : ascii -> bool) (j : nat) (s : string) :
  j <= span cls s ->
  all_chars cls (take_str j s) = true /\ String.length (take_str j s) = j.
Proof.
  revert s. induction j as [|j IH]; intros s Hj; [by destruct s|].
  destruct s as [|c s]; simpl in *; [lia|].
  destruct (cls c) eqn:Hc; [|lia].
  destruct (IH s ltac:(lia)) as [Hall Hlen].
  by rewrite Hall, Hlen.
Qed.

Lemma span_app (cls : ascii -> bool) (w rest : string) :
  all_chars cls w = true -> String.length w <= span cls (w +:+ rest).
Proof.
  induction w as [|c w IH]; [simpl; lia|].
  intros H. simpl in H. apply andb_true_iff in H as [Hc Hw].
  rewrite app_cons. simpl. rewrite Hc.
  specialize (IH Hw). lia.
Qed.

Lemma greedy_sound {A} (min k : nat) (continue : nat -> option A) (r : A) :
  greedy min k continue = Some r ->
  exists j, min <= j <= k /\ continue j = Some r.
Proof.
  induction k as [|k IH]; cbn [greedy].
  - destruct (Nat.ltb_spec 0 min); [done|].
    destruct (continue 0) eqn:E; [|done]. intros [= ->]. exists 0. split; [lia|done].
  - destruct (Nat.ltb_spec (S k) min); [done|].
    destruct (continue (S k)) eqn:E.
    + intros [= ->]. exists (S k). split; [lia|done].
    + intros (j & Hj & Hc)%IH. exists j. split; [lia|done].
Qed.

Lemma greedy_complete {A} (min k : nat) (continue : nat -> option A) (j : nat) :
  min <= j <= k -> is_Some (continue j) -> is_Some (greedy min k continue).
Proof.
  intros Hj Hc. induction k as [|k IH]; cbn [greedy].
  - assert (j = 0) as -> by lia.
    destruct (Nat.ltb_spec 0 min); [lia|]. destruct Hc as [r ->]. by eexists.
  - destruct (Nat.ltb_spec (S k) min); [lia|].
    destruct (continue (S k)) eqn:E; [by eexists|].
    destruct (decide (j = S k)) as [->|Hne].
    + rewrite E in Hc. by destruct Hc.
    + apply IH. lia.
Qed.

(** A match the search finds is a reading of the pattern. *)
Lemma re_run_sound (pat : list token) :
  forall s marks groups r,
    re_run pat s marks groups = Some r -> pat_denotes pat s marks groups r.
Proof.
  induction pat as [|t pat IH]; intros s marks groups r H.
  - simpl in *. congruence.
  - destruct t as [c|cls min| |]; cbn [re_run pat_denotes] in *.
    + destruct s as [|c' s]; [done|].
      destruct (Ascii.eqb_spec c c') as [->|]; [|done].
      exists s. split; [done|]. by apply IH.
    + apply greedy_sound in H as (j & Hj & H).
      destruct (take_span cls j s ltac:(lia)) as [Hall Hlen].
      exists (take_str j s), (drop_str j s).
      split; [by rewrite take_drop_str|]. split; [done|].
      split; [lia|]. by apply IH.
    + by apply IH.
    + destruct marks; [done|]. by apply IH.
Qed.

(** When the pattern has a reading the search finds a match. *)
Lemma re_run_complete (pat : list token) :
  forall s marks groups r,
    pat_denotes pat s marks groups r -> is_Some (re_run pat s marks groups).
Proof.
  induction pat as [|t pat IH]; intros s marks groups r H.
  - by eexists.
  - destruct t as [c|cls min| |]; cbn [re_run pat_denotes] in *.
    + destruct H as (rest & -> & H). rewrite Ascii.eqb_refl. by eapply IH.
    + destruct H as (w & rest & -> & Hall & Hmin & H).
      apply (greedy_complete _ _ _ (String.length w)).
      * split; [done|]. by apply span_app.
      * rewrite drop_str_app. by eapply IH.
    + by eapply IH.
    + destruct marks; [done|]. by eapply IH.
Qed.

(** *** [_parse_deployment_log_line] *)

(** A match of the node-line pattern reads the line as a head and a message,
    and its groups are the name, the rank, the address and the message. *)
Lemma log_line_match_sound (line : string) (groups : list string) :
  re_match log_line_pattern line = Some groups ->
  exists node_name ws1 rank ws2 pid ws3 ip ws4 message rest,
    line = "(" +:+ node_name +:+ "," +:+ ws1 +:+ "rank=" +:+ rank +:+ ","
           +:+ ws2 +:+ "pid=" +:+ pid +:+ "," +:+ ws3 +:+ "ip=" +:+ ip +:+ ")"
           +:+ ws4 +:+ message +:+ rest /\
    groups = [node_name; rank; ip; message] /\
    node_name <> "" /\ all_chars (fun c => negb (Ascii.eqb c ",")) node_name = true /\
    all_chars is_space ws1 = true /\
    rank <> "" /\ all_chars is_digit rank = true /\
    all_chars is_space ws2 = true /\
    pid <> "" /\ all_chars is_digit pid = true /\
    all_chars is_space ws3 = true /\
    ip <> "" /\ all_chars (fun c => negb (Ascii.eqb c ")")) ip = true.
Proof.
  intros H. apply re_run_sound in H.
  unfold log_line_pattern, lit in H.
  cbn [list_ascii_of_string map app pat_denotes] in H.
  destruct H as
    (r0 & -> & node_name & r1 & -> & Hname & Hname1
     & r2 & -> & ws1 & r3 & -> & Hws1 & _
     & r4 & -> & r5 & -> & r6 & -> & r7 & -> & r8 & ->
     & rank & r9 & -> & Hrank & Hrank1
     & r10 & -> & ws2 & r11 & -> & Hws2 & _
     & r12 & -> & r13 & -> & r14 & -> & r15 & ->
     & pid & r16 & -> & Hpid & Hpid1
     & r17 & -> & ws3 & r18 & -> & Hws3 & _
     & r19 & -> & r20 & -> & r21 & ->
     & ip & r22 & -> & Hip & Hip1
     & r23 & -> & ws4 & r24 & -> & Hws4 & _
     & message & rest & -> & Hmessage & _ & ->).
  rewrite !take_str_group.
  exists node_name, ws1, rank, ws2, pid, ws3, ip, ws4, message, rest.
  split; [reflexivity|]. split; [reflexivity|].
  repeat split; try assumption;
    match goal with
    | Hlen : 1 <= String.length ?w |- ?w <> "" => intros ->; simpl in Hlen; lia
    end.
Qed.

Lemma nonempty_length (w : string) : w <> "" -> 1 <= String.length w.
Proof. destruct w; [done|]. simpl. lia. Qed.

(** A line of the node-line shape has a match. *)
Lemma log_line_match_complete (line : string) :
  node_line_shape line -> is_Some (re_match log_line_pattern line).
Proof.
  intros (node_name & ws1 & rank & ws2 & pid & ws3 & ip & rest & -> & Hn & Hnc
          & Hws1 & Hr & Hrd & Hws2 & Hp & Hpd & Hws3 & Hi & Hic).
  apply nonempty_length in Hn, Hr, Hp, Hi.
  unfold re_match. eapply re_run_complete.
  unfold log_line_pattern, lit.
  cbn [list_ascii_of_string map app pat_denotes].
  repeat first
    [ exists node_name; eexists; split; [reflexivity|];
      split; [assumption|]; split; [assumption|]
    | exists ws1; eexists; split; [reflexivity|];
      split; [assumption|]; split; [lia|]
    | exists rank; eexists; split; [reflexivity|];
      split; [assumption|]; split; [assumption|]
    | exists ws2; eexists; split; [reflexivity|];
      split; [assumption|]; split; [lia|]
    | exists pid; eexists; split; [reflexivity|];
      split; [assumption|]; split; [assumption|]
    | exists ws3; eexists; split; [reflexivity|];
      split; [assumption|]; split; [lia|]
    | exists ip; eexists; split; [reflexivity|];
      split; [assumption|]; split; [assumption|]
    | exists "", rest; split; [reflexivity|];
      split; [reflexivity|]; split; [simpl; lia|]
    | eexists; split; [reflexivity|] ].
  reflexivity.
Qed.

Lemma py_int_digits (text : string) :
  text <> "" -> all_chars is_digit text = true -> String.length text <= 4300 ->
  py_int text = Ok (digits_value 0 text).
Proof.
  intros Hne Hd Hlen. unfold py_int. rewrite Hd.
  destruct text as [|c text]; [done|]. cbn [nonempty andb].
  destruct (N.ltb_spec int_max_str_digits (N.of_nat (String.length (String c text))))
    as [Hlt|_]; [|done].
  unfold int_max_str_digits in Hlt. lia.
Qed.

(** A rank of more digits than the limit makes [int] raise. *)
Lemma py_int_over_limit (text : string) :
  all_chars is_digit text = true -> 4300 < String.length text ->
  exists e, py_int text = Raise e.
Proof.
  intros Hd Hlen. unfold py_int. rewrite Hd.
  destruct text as [|c text]; [simpl in Hlen; lia|]. cbn [nonempty andb].
  destruct (N.ltb_spec int_max_str_digits (N.of_nat (String.length (String c text))))
    as [_|Hge]; [by eexists|].
  unfold int_max_str_digits in Hge. lia.
Qed.

Lemma lstrip_length (s : string) : String.length (lstrip s) <= String.length s.
Proof.
  induction s as [|c s IH]; [done|]. simpl. destruct (is_space c); simpl; lia.
Qed.

Lemma rstrip_length (s : string) : String.length (rstrip s) <= String.length s.
Proof.
  induction s as [|c s IH]; [done|]. simpl.
  destruct (rstrip s) as [|c' kept]; [destruct (is_space c)|]; simpl in *; lia.
Qed.

Lemma strip_length (s : string) : String.length (strip s) <= String.length s.
Proof.
  unfold strip. pose proof (rstrip_length (lstrip s)). pose proof (lstrip_length s). lia.
Qed.

(** A line that yields an event has the node-line shape. *)
Lemma parse_log_line_event_shape (now : Q) (line : string) (node_info : log_event) :
  _parse_deployment_log_line now line = Ok (Some node_info) -> node_line_shape line.
Proof.
  unfold _parse_deployment_log_line. intros H.
  destruct (re_match log_line_pattern line) as [groups|] eqn:Hm; [|done].
  apply log_line_match_sound in Hm
    as (node_name & ws1 & rank & ws2 & pid & ws3 & ip & ws4 & message & rest
        & -> & _ & Hshape).
  exists node_name, ws1, rank, ws2, pid, ws3, ip, (ws4 +:+ message +:+ rest).
  split; [reflexivity|exact Hshape].
Qed.

(** A line that has not the node-line shape yields no event, and the
    parser does not raise on it. *)
Lemma parse_log_line_not_shape (now : Q) (line : string) :
  ~ node_line_shape line -> _parse_deployment_log_line now line = Ok None.
Proof.
  intros Hshape. unfold _parse_deployment_log_line.
  destruct (re_match log_line_pattern line) as [groups|] eqn:Hm; [|done].
  exfalso. apply Hshape.
  apply log_line_match_sound in Hm
    as (node_name & ws1 & rank & ws2 & pid & ws3 & ip & ws4 & message & rest
        & -> & _ & Hs).
  exists node_name, ws1, rank, ws2, pid, ws3, ip, (ws4 +:+ message +:+ rest).
  split; [reflexivity|exact Hs].
Qed.

(** The parser raises on no line of at most 4300 characters: the rank of
    such a line is within the digit limit of [int]. *)
Lemma parse_log_line_bounded (now : Q) (line : string) :
  String.length line <= 4300 ->
  exists r, _parse_deployment_log_line now line = Ok r.
Proof.
  intros Hlen. unfold _parse_deployment_log_line.
  destruct (re_match log_line_pattern line) as [groups|] eqn:Hm; [|by eexists].
  apply log_line_match_sound in Hm
    as (node_name & ws1 & rank & ws2 & pid & ws3 & ip & ws4 & message & rest
        & Hline & -> & _ & _ & _ & Hr & Hrd & _).
  rewrite (py_int_digits rank Hr Hrd); [by eexists|].
  rewrite Hline in Hlen. rewrite !string_length_app in Hlen. lia.
Qed.

(** C8. The parser maps the node line of worker8 to the event with node
    name worker8, rank 8, address 172.31.41.250 and message deployment
    complete; it maps every line that has not the node-line shape to no
    event, without raising; and the line that lacks the rank field is such a
    line. *)
Theorem parse_log_line_shape :
  (forall now,
     _parse_deployment_log_line now
       "(worker8, rank=8, pid=2816, ip=172.31.41.250) deployment complete"
     = Ok (Some {| node := "worker8"; rank := 8; ip := "172.31.41.250";
                   message := "deployment complete"; timestamp := now |})) /\
  (forall now line,
     ~ node_line_shape line -> _parse_deployment_log_line now line = Ok None) /\
  (forall now,
     _parse_deployment_log_line now
       "(worker8, pid=2816, ip=172.31.41.250) deployment complete"
     = Ok None).
Proof.
  split; [|split].
  - intros now. reflexivity.
  - intros now line Hshape. by apply parse_log_line_not_shape.
  - intros now. reflexivity.
Qed.

Lemma parse_log_line_shape_witness :
  _parse_deployment_log_line 0 "Pulling image ghcr.io/bacalhau-project/bacalhau:latest"
  = Ok None.
Proof.
  apply (proj1 (proj2 parse_log_line_shape)).
  intros (node_name & ws1 & rank & ws2 & pid & ws3 & ip & rest & Heq & _).
  discriminate Heq.
Defined.

(** *** The node table, from the lines *)

(** On lines of at most 4300 characters the loop over the lines of a read
    does not raise, and the table it leaves is the table of the events of
    the lines that parsed. *)
Lemma process_lines_events (nodes : gmap string node_entry) (reads : list (Q * string)) :
  Forall (fun read => String.length read.2 <= 4300) reads ->
  process_lines nodes reads = (foldl record_event nodes (events_of reads), Ok tt).
Proof.
  intros Hall. revert nodes.
  induction Hall as [|[now line] reads Hline _ IH]; intros nodes; [done|].
  cbn [process_lines]. unfold process_line, events_of. cbn [omap list_omap fst snd].
  simpl in Hline. pose proof (strip_length line) as Hstrip.
  destruct (parse_log_line_bounded now (strip line)) as [[node_info|] H]; [lia| |];
    rewrite H.
  - rewrite IH. reflexivity.
  - rewrite IH. reflexivity.
Qed.

(** A line whose rank has more digits than the limit of [int] ends the
    loop: the lines of the read that follow it are not recorded. *)
Lemma process_lines_stops_at_long_rank
    (nodes : gmap string node_entry) (now : Q) (line : string)
    (rest : list (Q * string)) (e : py_exn) :
  _parse_deployment_log_line now (strip line) = Raise e ->
  process_lines nodes ((now, line) :: rest) = (nodes, Raise e).
Proof. intros H. cbn [process_lines]. unfold process_line. by rewrite H. Qed.

(** Seven node lines of worker8, read with another line among them, leave
    the third to the seventh message in the buffer of the node. *)
Lemma seven_lines_buffer :
  recent_messages <$> ((process_lines ∅ seven_reads).1 !! "worker8-8")
  = Some ["step 3"; "step 4"; "step 5"; "step 6"; "step 7"].
Proof. vm_compute. reflexivity. Qed.

End ManagerFacts.

(** * Further properties of the nuke command *)
Section NukeGrouping.
Import Nuke.

Lemma groups_get_group_add groups r i r' :
  groups_get (group_add r i groups) r' =
  if String.eqb r r' then groups_get groups r' ++ [i] else groups_get groups r'.
Proof.
  induction groups as [|[r0 ids] g IH]; simpl.
  - by destruct (String.eqb r r').
  - destruct (String.eqb_spec r0 r) as [->|Hne]; simpl.
    + by destruct (String.eqb_spec r r').
    + rewrite IH. destruct (String.eqb_spec r0 r') as [->|Hne'].
      * destruct (String.eqb_spec r r'); [congruence|done].
      * done.
Qed.

Lemma groups_get_fold all groups r :
  groups_get
    (foldl (fun groups inst => group_add (region inst) (id inst) groups) groups all) r
  = groups_get groups r ++ map id (filter (fun inst => region inst = r) all).
Proof.
  revert groups. induction all as [|inst all IH]; intros groups; simpl.
  - by rewrite app_nil_r.
  - rewrite IH, groups_get_group_add, filter_cons.
    destruct (String.eqb_spec (region inst) r) as [Heq|Hne].
    + rewrite decide_True by done. simpl. by rewrite <- app_assoc.
    + by rewrite decide_False.
Qed.

Lemma termination_groups_keys all :
  NoDup (map fst (termination_groups all)) /\
  forall r, r ∈ map fst (termination_groups all) <-> r ∈ map region all.
Proof.
  unfold termination_groups.
  assert (forall groups,
            NoDup (map fst groups) ->
            let groups' :=
              foldl (fun groups inst => group_add (region inst) (id inst) groups)
                groups all in
            NoDup (map fst groups') /\
            forall r, r ∈ map fst groups' <->
                      r ∈ map fst groups \/ r ∈ map region all) as H.
  { induction all as [|inst all IH]; intros groups Hnd; simpl.
    - split; [done|]. intros r. split; [by left|]. by intros [|[]%elem_of_nil].
    - destruct (IH _ (group_add_NoDup groups (region inst) (id inst) Hnd))
        as [Hnd' Hk].
      split; [done|]. intros r. rewrite Hk, group_add_keys, elem_of_cons.
      case_decide as Hd.
      + split; [tauto|]. intros [?|[->|?]]; tauto.
      + rewrite elem_of_app, list_elem_of_singleton. tauto. }
  destruct (H [] (NoDup_nil_2 : NoDup (map fst []))) as [Hnd Hk].
  split; [done|]. intros r. rewrite Hk. split; [|by right].
  by intros [[]%elem_of_nil|].
Qed.

Lemma groups_get_entry groups r ids :
  NoDup (map fst groups) -> (r, ids) ∈ groups -> groups_get groups r = ids.
Proof.
  induction groups as [|[r0 ids0] g IH]; intros Hnd Hin; [by apply elem_of_nil in Hin|].
  simpl in *. apply NoDup_cons in Hnd as [Hnin Hnd].
  apply elem_of_cons in Hin as [[= -> ->]|Hin].
  - by rewrite String.eqb_refl.
  - destruct (String.eqb_spec r0 r) as [->|]; [|by apply IH].
    exfalso. apply Hnin. apply list_elem_of_fmap. by exists (r, ids).
Qed.

(** X1. The termination groups are the found instances grouped by region:
    the batch of a region is the ids of the instances found in that region,
    in the order of the scan, and a region without instances has none. *)
Theorem termination_groups_by_region (all : list instance) (r : string) :
  groups_get (termination_groups all) r
  = map id (filter (fun inst => region inst = r) all).
Proof. unfold termination_groups. by rewrite groups_get_fold. Qed.

(** X2. There is one group for each region in which an instance was found
    and no other; it holds the ids found in that region, and it is never
    empty, so no termination request is submitted without ids. *)
Theorem termination_groups_one_per_region (all : list instance) :
  NoDup (map fst (termination_groups all)) /\
  (forall r, r ∈ map fst (termination_groups all) <-> r ∈ map region all) /\
  (forall r ids, (r, ids) ∈ termination_groups all ->
     ids = map id (filter (fun inst => region inst = r) all) /\ ids <> []).
Proof.
  destruct (termination_groups_keys all) as [Hnd Hk].
  split; [done|]. split; [done|]. intros r ids Hin.
  pose proof (groups_get_entry _ _ _ Hnd Hin) as Hget.
  unfold termination_groups in Hget. rewrite groups_get_fold in Hget.
  simpl in Hget. split; [done|]. symmetry in Hget.
  assert (r ∈ map region all) as Hr.
  { apply Hk. apply list_elem_of_fmap. by exists (r, ids). }
  apply list_elem_of_fmap in Hr as [inst [-> Hinst]].
  intros ->. symmetry in Hget. apply map_eq_nil in Hget.
  assert (inst ∈ filter (fun inst0 => region inst0 = region inst) all) as Hf
    by (by apply list_elem_of_filter).
  rewrite Hget in Hf. by apply elem_of_nil in Hf.
Qed.

Lemma termination_groups_one_per_region_witness :
  ["i-0a1"; "i-0b2"]
  = map id (filter (fun inst => region inst = "us-east-1")
              [sample_instance "i-0a1" "us-east-1"; sample_instance "i-0c3" "eu-west-1";
               sample_instance "i-0b2" "us-east-1"]) /\
  ["i-0a1"; "i-0b2"] <> [].
Proof.
  apply (proj2 (proj2 (termination_groups_one_per_region
                         [sample_instance "i-0a1" "us-east-1";
                          sample_instance "i-0c3" "eu-west-1";
                          sample_instance "i-0b2" "us-east-1"]))
           "us-east-1" ["i-0a1"; "i-0b2"]).
  apply (bool_decide_unpack _). vm_compute. reflexivity.
Defined.

End NukeGrouping.

Section NukeWorkflow.
Import Nuke.

Lemma filter_none {A} (P : A -> Prop) `{forall x, Decision (P x)} (l : list A) :
  (forall x, x ∈ l -> ~ P x) -> filter P l = [].
Proof.
  induction l as [|x l IH]; intros Hall; [done|].
  rewrite filter_cons_False by (apply Hall; left).
  apply IH. intros y Hy. apply Hall. by right.
Qed.

Lemma filter_all {A} (P : A -> Prop) `{forall x, Decision (P x)} (l : list A) :
  (forall x, x ∈ l -> P x) -> filter P l = l.
Proof.
  induction l as [|x l IH]; intros Hall; [done|].
  rewrite filter_cons_True by (apply Hall; left).
  f_equal. apply IH. intros y Hy. apply Hall. by right.
Qed.

(** Every record of a region's scan carries the name of that region. *)
Lemma region_value_region describe r inst :
  inst ∈ region_value (find_spot_instances_in_region describe) r -> region inst = r.
Proof.
  unfold region_value, find_spot_instances_in_region.
  destruct (describe r) as [reservations|e].
  - intros Hin%list_elem_of_In%in_concat. destruct Hin as (l & Hl & Hin).
    apply in_map_iff in Hl as (reservation & <- & _).
    apply in_map_iff in Hin as (i & <- & _). done.
  - destruct (exn_code e) as [code|]; [|by intros []%elem_of_nil].
    destruct (String.eqb code "UnauthorizedOperation"); by intros []%elem_of_nil.
Qed.

Lemma scanned_of_region describe completed r :
  NoDup completed -> r ∈ completed ->
  filter (fun inst => region inst = r)
    (concat (map (region_value (find_spot_instances_in_region describe)) completed))
  = region_value (find_spot_instances_in_region describe) r.
Proof.
  induction completed as [|r' rs IH]; intros Hnd Hin; [by apply elem_of_nil in Hin|].
  apply NoDup_cons in Hnd as [Hnin Hnd]. simpl. rewrite filter_app.
  assert (forall r0, r0 <> r ->
            filter (fun inst => region inst = r)
              (region_value (find_spot_instances_in_region describe) r0) = [])
    as Hother.
  { intros r0 Hne. apply filter_none. intros inst Hinst Hr.
    apply region_value_region in Hinst. congruence. }
  destruct (decide (r' = r)) as [->|Hne].
  - rewrite filter_all by (intros inst; apply region_value_region).
    assert (filter (fun inst => region inst = r)
              (concat (map (region_value (find_spot_instances_in_region describe)) rs))
            = []) as ->; [|by rewrite app_nil_r].
    clear IH Hin Hnd. induction rs as [|r0 rs IH]; [done|].
    simpl. rewrite filter_app, Hother, IH; [done| |].
    + intros Hr. apply Hnin. by right.
    + intros ->. apply Hnin. by left.
  - rewrite Hother by done. apply IH; [done|].
    apply elem_of_cons in Hin as [->|]; done.
Qed.

(** X3. Scan and grouping compose: when each region is scanned once, the
    batch that is submitted for a region whose scan returned is the
    instance ids of that region's response, reservation after reservation,
    whatever the other regions returned or raised and in whatever order the
    scans completed. *)
Theorem scanned_batch_of_region
    (describe : describe_api) (completed : list string) (r : string)
    (reservations : list (list ec2_instance)) :
  NoDup completed ->
  r ∈ completed ->
  describe r = Ok reservations ->
  groups_get
    (termination_groups
       (all_instances
          (scan_regions (find_spot_instances_in_region describe) completed))) r
  = map InstanceId (concat reservations).
Proof.
  intros Hnd Hin Hd.
  unfold termination_groups. rewrite groups_get_fold, scan_regions_closed. simpl.
  rewrite (scanned_of_region describe completed r Hnd Hin).
  unfold region_value, find_spot_instances_in_region. rewrite Hd.
  rewrite !concat_map, map_map. f_equal. apply map_ext. intros reservation.
  rewrite map_map. done.
Qed.

Lemma scanned_batch_of_region_witness :
  groups_get
    (termination_groups
       (all_instances
          (scan_regions (find_spot_instances_in_region describe_two_regions)
             (rev AWS_REGIONS)))) "us-east-1"
  = ["i-0a1"; "i-0b2"].
Proof.
  apply (scanned_batch_of_region describe_two_regions (rev AWS_REGIONS) "us-east-1"
           [[sample_ec2 "i-0a1"; sample_ec2 "i-0b2"]]).
  - apply (bool_decide_unpack _). vm_compute. reflexivity.
  - apply (bool_decide_unpack _). vm_compute. reflexivity.
  - reflexivity.
Defined.

(** The scan of a region raises exactly when its [describe_instances]
    call raises something other than the authorization-denied client error,
    and it raises that same exception. *)
Lemma find_raises_iff (describe : describe_api) (r : string) (e : py_exn) :
  find_spot_instances_in_region describe r = Raise e <->
  describe r = Raise e /\ exn_code e <> Some "UnauthorizedOperation".
Proof.
  unfold find_spot_instances_in_region.
  destruct (describe r) as [reservations|e']; [split; [done|by intros [? _]]|].
  destruct (exn_code e') as [code|] eqn:Hcode.
  - destruct (String.eqb_spec code "UnauthorizedOperation") as [->|Hne].
    + split; [done|]. intros [[= ->] Hc]. congruence.
    + split.
      * intros [= ->]. split; [done|]. congruence.
      * by intros [[= ->] _].
  - split.
    + intros [= ->]. split; [done|]. congruence.
    + by intros [[= ->] _].
Qed.

End NukeWorkflow.

Section NukeCounts.
Import Nuke.
Context {entry : Type} (entry_id : entry -> string).

Lemma count_success_le (results : gmap string string) :
  count_success results <= size results.
Proof.
  unfold count_success. rewrite <- (length_map_to_list results).
  apply length_filter.
Qed.

Lemma terminate_regions_fold terminate groups completed c :
  foldl (terminate_step terminate groups) c completed =
  {| terminated_count :=
       terminated_count c
       + sum_list (map (fun r => count_success
                                   (terminate_instances_in_region terminate r
                                      (groups_get groups r))) completed);
     failed_count :=
       failed_count c
       + sum_list (map (fun r =>
                          size (terminate_instances_in_region terminate r
                                  (groups_get groups r))
                          - count_success
                              (terminate_instances_in_region terminate r
                                 (groups_get groups r))) completed) |}.
Proof.
  revert c. induction completed as [|r rs IH]; intros c; simpl.
  - destruct c. simpl. f_equal; lia.
  - rewrite IH. unfold terminate_step. simpl. f_equal; lia.
Qed.

(** X4. The summary counts every outcome once: over the regions whose
    futures completed, the instances counted as terminated and those counted
    as failed add up to the number of entries of the result maps. *)
Theorem terminate_counts_add_up
    (terminate : terminate_api) (groups : list (string * list string))
    (completed : list string) :
  terminated_count (terminate_regions terminate groups completed)
  + failed_count (terminate_regions terminate groups completed)
  = sum_list (map (fun r => size (terminate_instances_in_region terminate r
                                    (groups_get groups r))) completed).
Proof.
  unfold terminate_regions. rewrite terminate_regions_fold. simpl.
  induction completed as [|r rs IH]; simpl; [done|].
  pose proof (count_success_le
                (terminate_instances_in_region terminate r (groups_get groups r))).
  lia.
Qed.

Lemma str_in_error_status (detail : string) :
  str_in "ERROR" ("ERROR: " +:+ detail) = true.
Proof. apply (str_in_app "ERROR" "" (": " +:+ detail)). Qed.

(** A batch whose call raised has no success. *)
Lemma count_success_raised terminate r ids e :
  terminate r ids = Raise e ->
  count_success (terminate_instances_in_region terminate r ids) = 0.
Proof.
  intros He. unfold count_success, terminate_instances_in_region.
  destruct ids as [|i ids]; [by rewrite map_to_list_empty|].
  rewrite He. rewrite filter_none; [done|].
  intros [k v] Hkv%elem_of_map_to_list%dict_of_lookup_Some Hs. simpl in Hs.
  apply list_elem_of_fmap in Hkv as [j [[= -> ->] _]].
  by rewrite str_in_error_status in Hs.
Qed.

Lemma terminated_count_all_raised terminate groups completed :
  (forall r ids, exists e, terminate r ids = Raise e) ->
  terminated_count (terminate_regions terminate groups completed) = 0.
Proof.
  intros Hfail. unfold terminate_regions. rewrite terminate_regions_fold. simpl.
  induction completed as [|r rs IH]; simpl; [done|].
  destruct (Hfail r (groups_get groups r)) as [e He].
  by rewrite (count_success_raised _ _ _ _ He), IH.
Qed.

(** X5. When every termination call raises, no instance counts as
    terminated and the command does not write the persisted list. *)
Theorem nuke_all_rejected_saves_nothing (env : nuke_env (entry := entry)) (force : bool) :
  (forall r ids, exists e, terminate env r ids = Raise e) ->
  nuke_saved (cmd_nuke entry_id env force) = None /\
  (forall counts, nuke_counts (cmd_nuke entry_id env force) = Some counts ->
     terminated_count counts = 0).
Proof.
  intros Hfail. unfold cmd_nuke, nuke_terminate_phase, reconcile.
  destruct (negb (check_aws_auth env)); [done|].
  destruct (negb force && negb (String.eqb (confirmation env) "DESTROY ALL SPOTS"));
    [done|].
  destruct (all_instances (scan_regions _ _)) as [|inst all]; [done|].
  destruct (negb force && negb (String.eqb (final_confirm env) "YES")); [done|].
  simpl. rewrite (terminated_count_all_raised _ _ _ Hfail).
  split; [by case_decide; [lia|]|].
  intros counts [= <-]. by apply terminated_count_all_raised.
Qed.

End NukeCounts.

Lemma nuke_all_rejected_saves_nothing_witness :
  Nuke.nuke_saved (Nuke.cmd_nuke Nuke.id Nuke.env_all_rejected true) = None.
Proof.
  apply (nuke_all_rejected_saves_nothing Nuke.id Nuke.env_all_rejected true).
  intros r ids. eexists. reflexivity.
Defined.

(** * Further properties of the cluster manager *)
Section NodeTable.
Import Manager.

(** ** The node id *)

Lemma is_digit_pretty_N_char (x : N) : is_digit (pretty_N_char x) = true.
Proof. unfold pretty_N_char. by repeat case_match. Qed.

Lemma pretty_N_go_digits (x : N) (s : string) :
  all_chars is_digit s = true -> all_chars is_digit (pretty_N_go x s) = true.
Proof.
  revert s. induction (N.lt_wf_0 x) as [x _ IH]; intros s Hs.
  assert (x = 0 \/ 0 < x)%N as [->|Hpos] by lia.
  - by rewrite pretty_N_go_0.
  - rewrite pretty_N_go_step by done. apply IH; [by apply N.div_lt|].
    simpl. by rewrite is_digit_pretty_N_char.
Qed.

(** The decimal text of a number is made of digits. *)
Lemma pretty_N_digits (x : N) : all_chars is_digit (pretty x) = true.
Proof.
  unfold pretty, pretty_N. case_decide; [done|]. by apply pretty_N_go_digits.
Qed.

Lemma all_chars_app (cls : ascii -> bool) (a b : string) :
  all_chars cls (a +:+ b) = all_chars cls a && all_chars cls b.
Proof.
  induction a as [|c a IH]; [done|].
  rewrite app_cons. simpl. by rewrite IH, andb_assoc.
Qed.

(** A text is split in one way only at its last dash. *)
Lemma dash_split (a b d1 d2 : string) :
  all_chars is_digit d1 = true -> all_chars is_digit d2 = true ->
  a +:+ "-" +:+ d1 = b +:+ "-" +:+ d2 -> a = b /\ d1 = d2.
Proof.
  intros H1 H2. revert b. induction a as [|c a IH]; intros [|c' b] Heq;
    repeat (rewrite app_cons in Heq || rewrite app_empty in Heq).
  - by injection Heq.
  - injection Heq as <- ->.
    rewrite all_chars_app in H1. simpl in H1.
    destruct (all_chars is_digit b); discriminate.
  - injection Heq as -> <-.
    rewrite all_chars_app in H2. simpl in H2.
    destruct (all_chars is_digit a); discriminate.
  - injection Heq as -> Heq.
    destruct (IH b Heq) as [-> ->]. done.
Qed.

Lemma node_id_parts (n1 n2 : string) (r1 r2 : N) :
  n1 +:+ "-" +:+ pretty r1 = n2 +:+ "-" +:+ pretty r2 -> n1 = n2 /\ r1 = r2.
Proof.
  intros Heq. apply dash_split in Heq as [Hn Hr]; [|apply pretty_N_digits..].
  split; [done|]. by apply (inj pretty).
Qed.

(** X6. The key of the node table identifies the pair of node name and
    rank: two events have the same node id only if they have the same node
    name and the same rank, even when node names contain dashes or digits. *)
Theorem node_id_inj (e1 e2 : log_event) :
  node_id e1 = node_id e2 -> node e1 = node e2 /\ rank e1 = rank e2.
Proof.
  unfold node_id. apply node_id_parts.
Qed.

Lemma node_id_inj_witness :
  node (worker8_event 3) = node (worker8_event 7) /\
  rank (worker8_event 3) = rank (worker8_event 7).
Proof. apply (node_id_inj (worker8_event 3) (worker8_event 7)). reflexivity. Defined.

(** ** Entries are created once and then updated *)

(** The key of an entry is the node id of its name and rank. *)
Lemma record_event_key (nodes : gmap string node_entry) (node_info : log_event) :
  (forall k e, nodes !! k = Some e ->
     k = entry_node e +:+ "-" +:+ pretty (entry_rank e)) ->
  forall k e, record_event nodes node_info !! k = Some e ->
    k = entry_node e +:+ "-" +:+ pretty (entry_rank e).
Proof.
  intros Hinv k e. unfold record_event.
  destruct (decide (node_id node_info = k)) as [<-|Hne].
  - rewrite lookup_insert_eq. intros [= <-]. simpl.
    destruct (nodes !! node_id node_info) as [e0|] eqn:Hl; [by apply Hinv|done].
  - rewrite lookup_insert_ne by done. apply Hinv.
Qed.

Lemma nodes_after_key (events : list log_event) k e :
  nodes_after events !! k = Some e ->
  k = entry_node e +:+ "-" +:+ pretty (entry_rank e).
Proof.
  revert k e. induction events as [|node_info events IH] using rev_ind; intros k e.
  - unfold nodes_after. simpl. by rewrite lookup_empty.
  - rewrite nodes_after_snoc. by apply record_event_key.
Qed.

Lemma record_event_keeps (nodes : gmap string node_entry) (node_info : log_event) k e :
  nodes !! k = Some e ->
  exists e', record_event nodes node_info !! k = Some e' /\
             entry_node e' = entry_node e /\ entry_rank e' = entry_rank e.
Proof.
  intros Hl. unfold record_event.
  destruct (decide (node_id node_info = k)) as [<-|Hne].
  - rewrite lookup_insert_eq, Hl. by eexists.
  - rewrite lookup_insert_ne by done. by exists e.
Qed.

(** X7. Reading log lines never removes a node from the table and never
    renames one: an entry that is in the table is still there after any
    further lines, with the same node name and rank, also when a line makes
    the parser raise and ends the loop over the read. *)
Theorem process_lines_keeps_nodes
    (nodes : gmap string node_entry) (reads : list (Q * string)) k e :
  nodes !! k = Some e ->
  exists e', (process_lines nodes reads).1 !! k = Some e' /\
             entry_node e' = entry_node e /\ entry_rank e' = entry_rank e.
Proof.
  revert nodes e.
  induction reads as [|[now line] reads IH]; intros nodes e Hl; cbn [process_lines].
  - by exists e.
  - unfold process_line.
    destruct (_parse_deployment_log_line now (strip line)) as [[node_info|]|raised].
    + destruct (record_event_keeps nodes node_info k e Hl) as (e1 & Hl1 & Hn1 & Hr1).
      destruct (IH _ _ Hl1) as (e2 & Hl2 & Hn2 & Hr2).
      exists e2. split; [done|]. split; congruence.
    + by apply IH.
    + by exists e.
Qed.

Lemma process_lines_keeps_nodes_witness :
  exists e',
    (process_lines (nodes_after [worker8_event 1]) seven_reads).1 !! "worker8-8"
    = Some e' /\
    entry_node e' = "worker8" /\ entry_rank e' = 8%N.
Proof.
  apply (process_lines_keeps_nodes (nodes_after [worker8_event 1]) seven_reads
           "worker8-8"
           {| entry_node := "worker8"; entry_rank := 8; entry_ip := "172.31.41.250";
              recent_messages := ["step 1"]; entry_timestamp := inject_Z 1 |}).
  reflexivity.
Defined.

Lemma nodes_after_app (pre post : list log_event) :
  nodes_after (pre ++ post) = foldl record_event (nodes_after pre) post.
Proof. unfold nodes_after. by rewrite foldl_app. Qed.

Lemma foldl_record_event_other (nodes : gmap string node_entry)
    (events : list log_event) k :
  Forall (fun node_info => node_id node_info <> k) events ->
  foldl record_event nodes events !! k = nodes !! k.
Proof.
  intros Hall. revert nodes. induction Hall as [|ev evs Hev _ IH]; intros nodes; [done|].
  simpl. rewrite IH. unfold record_event. by rewrite lookup_insert_ne.
Qed.

(** X8. The entry of a node shows its latest line: after a session, the
    entry under the node id of the last event of a node has the name and
    rank of that event and the address and the time of that event. *)
Theorem node_entry_shows_latest (pre post : list log_event) (node_info : log_event) :
  Forall (fun later => node_id later <> node_id node_info) post ->
  exists e,
    nodes_after (pre ++ node_info :: post) !! node_id node_info = Some e /\
    entry_node e = node node_info /\ entry_rank e = rank node_info /\
    entry_ip e = ip node_info /\ entry_timestamp e = timestamp node_info.
Proof.
  intros Hpost. rewrite nodes_after_app. simpl.
  rewrite (foldl_record_event_other _ post _ Hpost).
  pose proof (nodes_after_key (pre ++ [node_info]) (node_id node_info)) as Hkey.
  rewrite nodes_after_snoc in Hkey. unfold record_event in *.
  rewrite lookup_insert_eq in *. eexists. split; [done|]. simpl.
  specialize (Hkey _ eq_refl). simpl in Hkey.
  destruct (node_id_parts _ _ _ _ Hkey) as [Hn Hr].
  simpl in Hn, Hr. by rewrite <- Hn, <- Hr.
Qed.

Lemma node_entry_shows_latest_witness :
  exists e,
    nodes_after (map worker8_event [1; 2]%N ++ worker8_event 3 :: [])
    !! node_id (worker8_event 3) = Some e /\
    entry_node e = "worker8" /\ entry_rank e = 8%N /\
    entry_ip e = "172.31.41.250" /\ entry_timestamp e = inject_Z 3.
Proof.
  apply (node_entry_shows_latest (map worker8_event [1; 2]%N) [] (worker8_event 3)).
  constructor.
Defined.

End NodeTable.

Section LogLineFields.
Import Manager.

Lemma span_app_eq (cls : ascii -> bool) (w rest : string) :
  all_chars cls w = true -> span cls (w +:+ rest) = String.length w + span cls rest.
Proof.
  induction w as [|c w IH]; [done|].
  intros H. simpl in H. apply andb_true_iff in H as [Hc Hw].
  rewrite app_cons. simpl. by rewrite Hc, IH.
Qed.

Lemma greedy_first {A} (min k : nat) (continue : nat -> option A) (r : A) :
  min <= k -> continue k = Some r -> greedy min k continue = Some r.
Proof.
  intros Hk Hc. destruct k as [|k]; cbn [greedy].
  - destruct (Nat.ltb_spec 0 min); [lia|]. by rewrite Hc.
  - destruct (Nat.ltb_spec (S k) min); [lia|]. by rewrite Hc.
Qed.

(** A repetition takes its whole run when what follows it then matches. *)
Lemma re_run_rep_max cls min pat s marks groups r :
  min <= span cls s ->
  re_run pat (drop_str (span cls s) s) marks groups = Some r ->
  re_run (Rep cls min :: pat) s marks groups = Some r.
Proof. intros Hmin Hr. cbn [re_run]. by apply greedy_first. Qed.

Lemma re_run_rep_exact cls min pat w rest marks groups r :
  all_chars cls w = true -> min <= String.length w -> span cls rest = 0 ->
  re_run pat rest marks groups = Some r ->
  re_run (Rep cls min :: pat) (w +:+ rest) marks groups = Some r.
Proof.
  intros Hw Hmin Hrest Hr.
  assert (span cls (w +:+ rest) = String.length w) as Hspan
    by (rewrite span_app_eq, Hrest by done; lia).
  apply re_run_rep_max; rewrite Hspan; [done|]. by rewrite drop_str_app.
Qed.

Lemma re_run_chr c pat rest marks groups :
  re_run (Chr c :: pat) (String c rest) marks groups = re_run pat rest marks groups.
Proof. cbn [re_run]. by rewrite Ascii.eqb_refl. Qed.

Lemma re_run_open pat s marks groups :
  re_run (GroupOpen :: pat) s marks groups = re_run pat s (s :: marks) groups.
Proof. reflexivity. Qed.

Lemma re_run_close pat s opened marks groups :
  re_run (GroupClose :: pat) s (opened :: marks) groups
  = re_run pat s marks
      (groups ++ [take_str (String.length opened - String.length s) opened]).
Proof. reflexivity. Qed.

Lemma lstrip_span (s : string) : drop_str (span is_space s) s = lstrip s.
Proof.
  induction s as [|c s IH]; [done|]. simpl. by destruct (is_space c).
Qed.

Lemma span_le_length (cls : ascii -> bool) (s : string) :
  span cls s <= String.length s.
Proof. induction s as [|c s IH]; simpl; [lia|]. destruct (cls c); lia. Qed.

Lemma length_drop_str (k : nat) (s : string) :
  String.length (drop_str k s) = String.length s - k.
Proof.
  revert s. induction k as [|k IH]; intros [|c s]; simpl; done.
Qed.

(** X9. For every line that starts with a head
    [(name, rank=digits, pid=digits, ip=address)], with any whitespace after
    the commas and a rank of at most 4300 digits (the default limit of the
    interpreter for [int]), the parser returns the event whose node is the
    name, whose rank is the value of the rank digits, whose address is the
    address, and whose message is what follows the head up to the end of its
    first line, without the whitespace around it. *)
Theorem parse_log_line_fields
    (now : Q) (node_name ws1 rank_digits ws2 pid ws3 address rest : string) :
  node_name <> "" ->
  all_chars (fun c => negb (Ascii.eqb c ",")) node_name = true ->
  all_chars is_space ws1 = true ->
  rank_digits <> "" -> all_chars is_digit rank_digits = true ->
  String.length rank_digits <= 4300 ->
  all_chars is_space ws2 = true ->
  pid <> "" -> all_chars is_digit pid = true ->
  all_chars is_space ws3 = true ->
  address <> "" ->
  all_chars (fun c => negb (Ascii.eqb c ")")) address = true ->
  _parse_deployment_log_line now
    ("(" +:+ node_name +:+ "," +:+ ws1 +:+ "rank=" +:+ rank_digits +:+ ","
       +:+ ws2 +:+ "pid=" +:+ pid +:+ "," +:+ ws3 +:+ "ip=" +:+ address +:+ ")"
       +:+ rest)
  = Ok (Some {| node := node_name;
                rank := digits_value 0 rank_digits;
                ip := address;
                message := strip (first_line (lstrip rest));
                timestamp := now |}).
Proof.
  intros Hn Hnc Hws1 Hr Hrd Hlimit Hws2 Hp Hpd Hws3 Hi Hic.
  apply nonempty_length in Hn, Hr, Hp, Hi.
  assert (re_match log_line_pattern
            ("(" +:+ node_name +:+ "," +:+ ws1 +:+ "rank=" +:+ rank_digits +:+ ","
               +:+ ws2 +:+ "pid=" +:+ pid +:+ "," +:+ ws3 +:+ "ip=" +:+ address
               +:+ ")" +:+ rest)
          = Some [node_name; rank_digits; address; first_line (lstrip rest)]) as Hm.
  { unfold re_match, log_line_pattern, lit.
    cbn [list_ascii_of_string map app].
    repeat (rewrite app_cons || rewrite app_empty).
    rewrite re_run_chr, re_run_open.
    apply re_run_rep_exact; [done|done|reflexivity|].
    rewrite re_run_close, take_str_group, re_run_chr.
    apply re_run_rep_exact; [done|lia|reflexivity|].
    rewrite !re_run_chr, re_run_open.
    apply re_run_rep_exact; [done|done|reflexivity|].
    rewrite re_run_close, take_str_group, re_run_chr.
    apply re_run_rep_exact; [done|lia|reflexivity|].
    rewrite !re_run_chr.
    apply re_run_rep_exact; [done|done|reflexivity|].
    rewrite re_run_chr.
    apply re_run_rep_exact; [done|lia|reflexivity|].
    rewrite !re_run_chr, re_run_open.
    apply re_run_rep_exact; [done|done|reflexivity|].
    rewrite re_run_close, take_str_group, re_run_chr.
    apply re_run_rep_max; [lia|]. rewrite lstrip_span, re_run_open.
    apply re_run_rep_max; [lia|]. rewrite re_run_close. cbn [re_run app].
    do 5 f_equal. unfold first_line. f_equal. rewrite length_drop_str.
    pose proof (span_le_length (fun c => negb (Ascii.eqb c newline)) (lstrip rest)).
    lia. }
  unfold _parse_deployment_log_line. rewrite Hm.
  rewrite py_int_digits; [done| |done|done].
  intros ->. simpl in Hr. lia.
Qed.

Lemma parse_log_line_fields_witness :
  _parse_deployment_log_line (7 # 2)
    ("(" +:+ "node-3" +:+ "," +:+ "  " +:+ "rank=" +:+ "03" +:+ ","
       +:+ "" +:+ "pid=" +:+ "2816" +:+ "," +:+ " " +:+ "ip=" +:+ "10.0.0.3" +:+ ")"
       +:+ "  Docker daemon is running  ")
  = Ok (Some {| node := "node-3";
                rank := digits_value 0 "03";
                ip := "10.0.0.3";
                message := strip (first_line (lstrip "  Docker daemon is running  "));
                timestamp := 7 # 2 |}).
Proof.
  apply (parse_log_line_fields (7 # 2) "node-3" "  " "03" "" "2816" " " "10.0.0.3"
           "  Docker daemon is running  ");
    first [reflexivity | discriminate | simpl; lia].
Defined.

End LogLineFields.

Section CompletionDetector.
Import Manager.

(** ** [_parse_duration_to_seconds] and [_detect_deployment_completion] *)

Lemma re_search_suffix (pat : list token) (s : string) (groups : list string) :
  re_search pat s = Some groups -> exists s', re_match pat s' = Some groups.
Proof.
  induction s as [|c s IH]; cbn [re_search].
  - destruct (re_match pat "") eqn:E; [|done]. intros [= <-]. by exists "".
  - destruct (re_match pat (String c s)) eqn:E.
    + intros [= <-]. by eexists.
    + apply IH.
Qed.

(** The group of a duration pattern starts with a backslash. *)
Lemma duration_group (unit : ascii) (s : string) (groups : list string) :
  re_match (duration_pattern unit) s = Some groups ->
  exists w, groups = [String "\" w].
Proof.
  intros H. apply re_run_sound in H. cbn [duration_pattern pat_denotes] in H.
  destruct H as (rest & -> & w & rest' & -> & _ & _ & rest'' & -> & ->).
  exists w. rewrite <- app_cons, take_str_group. done.
Qed.

Lemma add_component_search (unit : ascii) (duration : string) (factor total n : N) :
  add_component (re_search (duration_pattern unit) duration) factor total = Ok n ->
  n = total.
Proof.
  unfold add_component.
  destruct (re_search (duration_pattern unit) duration) as [groups|] eqn:E.
  - apply re_search_suffix in E as [s' E]. apply duration_group in E as [w ->].
    simpl. unfold py_int. simpl. done.
  - by intros [= <-].
Qed.

Lemma parse_duration_result (duration : string) :
  _parse_duration_to_seconds duration = Ok 0%N \/
  exists e, _parse_duration_to_seconds duration = Raise e.
Proof.
  unfold _parse_duration_to_seconds.
  destruct (add_component (re_search (duration_pattern "h") duration) 3600 0)
    as [n1|] eqn:E1; [|by right; eexists].
  apply add_component_search in E1 as ->.
  destruct (add_component (re_search (duration_pattern "m") duration) 60 0)
    as [n2|] eqn:E2; [|by right; eexists].
  apply add_component_search in E2 as ->.
  destruct (add_component (re_search (duration_pattern "s") duration) 1 0)
    as [n3|] eqn:E3; [|by right; eexists].
  apply add_component_search in E3 as ->. by left.
Qed.

(** X10. Whenever the duration parser returns, it returns 0: a component
    that its patterns find starts with a backslash, and [int] raises on it. *)
Theorem parse_duration_never_positive (duration : string) (n : N) :
  _parse_duration_to_seconds duration = Ok n -> n = 0%N.
Proof.
  intros H. destruct (parse_duration_result duration) as [H0|[e He]]; congruence.
Qed.

Lemma parse_duration_never_positive_witness :
  _parse_duration_to_seconds "1h2m3s" = Ok 0%N /\ 0%N = 0%N.
Proof.
  split; [reflexivity|].
  apply (parse_duration_never_positive "1h2m3s" 0). reflexivity.
Defined.

(** A row whose status is [RUNNING] is answered with the job still
    running: the logs are not asked for. *)
Lemma running_row_still_running (sky : sky_oracle) (actual duration : string) :
  running_row sky actual duration
  = (false, "Job still running (" +:+ duration +:+ ")").
Proof.
  unfold running_row.
  by destruct (parse_duration_result duration) as [->|[e ->]].
Qed.

Lemma queue_rows_complete (sky : sky_oracle) (job actual : string) (lines : list string) :
  (queue_rows sky job actual lines).1 = true ->
  exists line,
    line ∈ lines /\ str_in job line = true /\
    7 <= length (split_ws line) /\
    (nth 6 (split_ws line) "" = "SUCCEEDED" \/ nth 6 (split_ws line) "" = "FAILED").
Proof.
  induction lines as [|line rest IH]; [done|]. cbn [queue_rows].
  assert ((queue_rows sky job actual rest).1 = true ->
          exists line0, line0 ∈ line :: rest /\ str_in job line0 = true /\
            7 <= length (split_ws line0) /\
            (nth 6 (split_ws line0) "" = "SUCCEEDED" \/
             nth 6 (split_ws line0) "" = "FAILED")) as Hrest.
  { intros (l & Hl & H)%IH. exists l. split; [by right|done]. }
  destruct (str_in job line) eqn:Hjob; [|done].
  destruct (Nat.leb_spec 7 (length (split_ws line))) as [Hlen|]; [|done].
  destruct (String.eqb_spec (nth 6 (split_ws line) "") "SUCCEEDED") as [Hs|_].
  { intros _. exists line. split; [by left|]. auto. }
  destruct (String.eqb_spec (nth 6 (split_ws line) "") "FAILED") as [Hf|_].
  { intros _. exists line. split; [by left|]. auto. }
  destruct (String.eqb (nth 6 (split_ws line) "") "RUNNING").
  { by rewrite running_row_still_running. }
  destruct (String.eqb (nth 6 (split_ws line) "") "PENDING"); done.
Qed.

(** X11. The completion detector reports a deployment as complete only for
    a job that the queue of the cluster shows as succeeded or failed: the
    status poll and the queue poll both succeeded, and a row of the queue
    that names the job has the status [SUCCEEDED] or [FAILED]. A job that is
    shown as running is never reported as complete. *)
Theorem detect_completion_only_terminal (sky : sky_oracle) (cluster_name : string) :
  (_detect_deployment_completion sky cluster_name).1 = true ->
  exists status_stdout status_stderr actual queue_stdout queue_stderr line,
    sky ["status"] = Ok (true, status_stdout, status_stderr) /\
    find_up_cluster (split_on newline status_stdout) = Some actual /\
    sky ["queue"; actual] = Ok (true, queue_stdout, queue_stderr) /\
    line ∈ split_on newline queue_stdout /\
    str_in cluster_name line = true /\
    (nth 6 (split_ws line) "" = "SUCCEEDED" \/ nth 6 (split_ws line) "" = "FAILED").
Proof.
  unfold _detect_deployment_completion.
  destruct (sky ["status"]) as [[[status_success status_stdout] status_stderr]|];
    [|done].
  destruct status_success; [|done]. simpl.
  destruct (nonempty status_stdout); [|done]. simpl.
  destruct (find_up_cluster (split_on newline status_stdout)) as [actual|] eqn:Hfind;
    [|done].
  destruct (sky ["queue"; actual])
    as [[[queue_success queue_stdout] queue_stderr]|] eqn:Hq; [|done].
  destruct queue_success; [|done]. simpl.
  intros (line & Hin & Hjob & _ & Hst)%queue_rows_complete.
  by exists status_stdout, status_stderr, actual, queue_stdout, queue_stderr, line.
Qed.

Lemma detect_completion_only_terminal_witness :
  exists status_stdout status_stderr actual queue_stdout queue_stderr line,
    sky_job_succeeded 0 ["status"] = Ok (true, status_stdout, status_stderr) /\
    find_up_cluster (split_on newline status_stdout) = Some actual /\
    sky_job_succeeded 0 ["queue"; actual] = Ok (true, queue_stdout, queue_stderr) /\
    line ∈ split_on newline queue_stdout /\
    str_in "amauo-cluster" line = true /\
    (nth 6 (split_ws line) "" = "SUCCEEDED" \/ nth 6 (split_ws line) "" = "FAILED").
Proof.
  apply (detect_completion_only_terminal (sky_job_succeeded 0) "amauo-cluster").
  reflexivity.
Defined.

(** The job has run for an hour and its logs say that the deployment is
    complete; the detector answers that the job is still running. *)
Lemma detect_completion_running_long :
  _detect_deployment_completion sky_job_running_long "amauo-cluster"
  = (false, "Job still running (1h2m3s)").
Proof. reflexivity. Qed.

End CompletionDetector.

Section StreamingMonitor.
Import Manager.

(** ** What a tick keeps *)

Lemma keeps_ret {A} (a : A) : keeps_progress (ret a).
Proof. intros st. done. Qed.

Lemma keeps_bind {A B} (m : stmt A) (k : A -> stmt B) :
  keeps_progress m -> (forall a, keeps_progress (k a)) -> keeps_progress (bind m k).
Proof.
  intros Hm Hk st. unfold bind. destruct (Hm st) as [Hc Hd].
  destruct (m st) as [st' [a|e]]; simpl in *; [|done].
  destruct (Hk a st') as [Hc' Hd']. split; auto.
Qed.

Lemma keeps_call sky args : keeps_progress (call sky args).
Proof. intros st. done. Qed.

Lemma keeps_set_completion_detected : keeps_progress set_completion_detected.
Proof. intros st. done. Qed.

Lemma keeps_adopt_cluster potential : keeps_progress (adopt_cluster potential).
Proof.
  intros st. unfold adopt_cluster. simpl. split; [|done].
  intros c Hc. by rewrite Hc.
Qed.

Lemma keeps_for_each {A} (l : list A) (body : A -> stmt unit) :
  (forall x, keeps_progress (body x)) -> keeps_progress (for_each l body).
Proof.
  intros Hbody. induction l as [|x l IH]; cbn [for_each]; [apply keeps_ret|].
  apply keeps_bind; [apply Hbody|]. intros _. apply IH.
Qed.

Lemma keeps_queue_line sky job cluster qline :
  keeps_progress (queue_line sky job cluster qline).
Proof.
  unfold queue_line.
  repeat first
    [ apply keeps_ret
    | apply keeps_set_completion_detected
    | apply keeps_bind; [apply keeps_call|intros [[? ?] ?]]
    | match goal with |- keeps_progress (if ?b then _ else _) => destruct b end ].
Qed.

Lemma keeps_status_lines sky job lines : keeps_progress (status_lines sky job lines).
Proof.
  induction lines as [|line rest IH]; cbn [status_lines]; [apply keeps_ret|].
  destruct (str_in "sky-" line && (str_in "INIT" line || str_in "UP" line)); [|done].
  destruct (split_ws line) as [|potential parts]; [done|].
  apply keeps_bind; [apply keeps_adopt_cluster|]. intros cluster.
  destruct (str_in "UP" line); [|apply keeps_ret].
  apply keeps_bind; [apply keeps_call|]. intros [[queue_success queue_stdout] ?].
  destruct (queue_success && nonempty queue_stdout); [|apply keeps_ret].
  apply keeps_for_each. intros qline. apply keeps_queue_line.
Qed.

Lemma keeps_poll sky job : keeps_progress (poll sky job).
Proof.
  unfold poll. apply keeps_bind; [apply keeps_call|].
  intros [[status_success status_stdout] ?].
  destruct (status_success && nonempty status_stdout); [|apply keeps_ret].
  apply keeps_status_lines.
Qed.

(** X12. A tick of the streaming monitor, whatever its polls return or
    raise, keeps the cluster the session follows, so the first cluster name
    the monitor sees is the one it follows to the end, and never undoes a
    detected completion. *)
Theorem tick_keeps_progress (sky : sky_oracle) (job_name : string) (st : monitor_state) :
  (forall c, deployment_cluster st = Some c ->
             deployment_cluster (tick sky job_name st) = Some c) /\
  (completion_detected st = true ->
   completion_detected (tick sky job_name st) = true).
Proof. apply keeps_poll. Qed.

Lemma tick_keeps_progress_witness :
  deployment_cluster
    (tick (sky_job_succeeded 0) "amauo-cluster"
       {| deployment_cluster := Some "sky-0000-old"; completion_detected := false |})
  = Some "sky-0000-old".
Proof.
  apply (proj1 (tick_keeps_progress (sky_job_succeeded 0) "amauo-cluster"
                  {| deployment_cluster := Some "sky-0000-old";
                     completion_detected := false |})).
  reflexivity.
Defined.

(** A status poll that fails, or that has no output, changes nothing. *)
Lemma tick_status_failed sky job_name st stdout stderr :
  sky ["status"] = Ok (false, stdout, stderr) -> tick sky job_name st = st.
Proof. intros H. unfold tick, poll, bind, call. by rewrite H. Qed.

(** ** The end of the loop on completion *)

Lemma state_after_not_detected sky job_name n :
  completion_detected (state_after sky job_name n) = false ->
  forall j, j <= n -> completion_detected (state_after sky job_name j) = false.
Proof.
  intros Hn j Hj. induction Hj as [|n Hj IH]; [done|].
  apply IH. simpl in Hn.
  destruct (completion_detected (state_after sky job_name n)) eqn:E; [|done].
  destruct (keeps_poll (sky n) job_name (state_after sky job_name n)) as [_ Hd].
  unfold tick in Hn. rewrite (Hd E) in Hn. done.
Qed.

Lemma monitor_loop_complete clock start_time sky job_name n :
  (forall j, j <= n -> (clock j - start_time < timeout)%Q) ->
  completion_detected (state_after sky job_name n) = false ->
  completion_detected (state_after sky job_name (S n)) = true ->
  forall fuel k,
    k <= S n -> S n - k < fuel ->
    monitor_loop fuel clock start_time sky job_name k (state_after sky job_name k)
    = Some (MonitoringComplete, S n).
Proof.
  intros Hclock Hn HSn. induction fuel as [|fuel IH]; intros k Hk Hfuel; [lia|].
  cbn [monitor_loop]. destruct (decide (k = S n)) as [->|Hne].
  - rewrite HSn. simpl. by rewrite andb_false_r.
  - assert (k <= n) as Hle by lia.
    rewrite (state_after_not_detected sky job_name n Hn k Hle). simpl.
    pose proof (Hclock k Hle) as Hb. apply Qltb_lt in Hb. rewrite Hb. simpl.
    apply (IH (S k)); lia.
Qed.

(** X13. The loop of the streaming monitor ends right after the first tick
    that detects completion: if the ceiling is not reached before, and the
    tick of index [n] is the first after which completion is detected, the
    loop runs [n + 1] ticks and the function shows the completion panel,
    whatever the clock shows afterwards. *)
Theorem monitor_completes_after_detection
    (clock : nat -> Q) (start_time : Q) (sky : nat -> sky_oracle) (job_name : string)
    (n : nat) :
  (forall j, j <= n -> (clock j - start_time < timeout)%Q) ->
  completion_detected (state_after sky job_name n) = false ->
  completion_detected (state_after sky job_name (S n)) = true ->
  forall fuel, S n < fuel ->
    _monitor_deployment_progress_streaming fuel clock start_time sky job_name
    = Some (MonitoringComplete, S n).
Proof.
  intros Hclock Hn HSn fuel Hfuel.
  apply (monitor_loop_complete clock start_time sky job_name n Hclock Hn HSn fuel 0);
    lia.
Qed.

Lemma monitor_completes_after_detection_witness :
  _monitor_deployment_progress_streaming 400 clock_every_3s 0 sky_job_succeeded
    "amauo-cluster"
  = Some (MonitoringComplete, 1).
Proof.
  apply (monitor_completes_after_detection clock_every_3s 0 sky_job_succeeded
           "amauo-cluster" 0).
  - intros j Hj. assert (j = 0) as -> by lia. reflexivity.
  - reflexivity.
  - reflexivity.
  - lia.
Defined.

End StreamingMonitor.

Section NodeInfoFromLogs.
Import Manager.

(** ** [_extract_node_info_from_logs] *)

(** On lines of at most 4300 characters the loop over the lines does not
    raise, and it leaves the dict of the events of the lines that parsed,
    each under its node id. *)
Lemma collect_nodes_events (nodes : gmap string log_event) (reads : list (Q * string)) :
  Forall (fun read => String.length read.2 <= 4300) reads ->
  collect_nodes nodes reads
  = Ok (foldl (fun nodes node_info => <[node_id node_info := node_info]> nodes)
          nodes (events_of reads)).
Proof.
  intros Hall. revert nodes.
  induction Hall as [|[now line] reads Hline _ IH]; intros nodes; [done|].
  cbn [collect_nodes]. unfold events_of. cbn [omap list_omap fst snd].
  simpl in Hline. pose proof (strip_length line) as Hstrip.
  destruct (parse_log_line_bounded now (strip line)) as [[node_info|] H]; [lia| |];
    rewrite H.
  - rewrite IH. reflexivity.
  - rewrite IH. reflexivity.
Qed.

Lemma timed_lines_bounded (now : nat -> Q) (stdout : string) :
  Forall (fun line => String.length line <= 4300) (split_on newline stdout) ->
  Forall (fun read => String.length read.2 <= 4300) (timed_lines now stdout).
Proof.
  unfold timed_lines. generalize (split_on newline stdout). intros lines.
  revert now. induction lines as [|line lines IH]; intros now Hall; [constructor|].
  apply Forall_cons in Hall as [Hline Hall]. simpl. constructor; [done|].
  apply (IH (fun i => now (S i)) Hall).
Qed.

(** A dict that is filled by assignments in a loop holds, under a key, the
    last value assigned to it. *)
Lemma foldl_insert_last {A} (key : A -> string) (nodes : gmap string A)
    (values : list A) (k : string) :
  foldl (fun nodes v => <[key v := v]> nodes) nodes values !! k
  = match last (filter (fun v => key v = k) values) with
    | Some v => Some v
    | None => nodes !! k
    end.
Proof.
  revert nodes. induction values as [|v values IH] using rev_ind; intros nodes; [done|].
  rewrite foldl_app, filter_app. simpl. rewrite filter_cons, filter_nil.
  case_decide as Hk.
  - rewrite last_snoc, <- Hk. by rewrite lookup_insert_eq.
  - rewrite app_nil_r, lookup_insert_ne by done. apply IH.
Qed.

(** X14. When the cluster is known and its logs are retrieved, the node
    information is a dict that holds, under each node id, the event of the
    last log line of that node, and nothing under any other key; the lines
    that are not node lines change nothing. (Lines of at most 4300
    characters: the conversion of the rank stays within the default digit
    limit of the interpreter.) *)
Theorem extract_node_info_latest
    (cluster_name stdout stderr : string) (sky : sky_oracle) (now : nat -> Q) :
  cluster_name <> "" ->
  sky ["logs"; cluster_name; "--tail=100"] = Ok (true, stdout, stderr) ->
  stdout <> "" ->
  Forall (fun line => String.length line <= 4300) (split_on newline stdout) ->
  exists nodes,
    _extract_node_info_from_logs (Ok (Some cluster_name)) sky now = Ok nodes /\
    forall k,
      nodes !! k
      = last (filter (fun node_info => node_id node_info = k)
                (events_of (timed_lines now stdout))).
Proof.
  intros Hc Hsky Hout Hlines. unfold _extract_node_info_from_logs.
  destruct cluster_name; [done|]. simpl. rewrite Hsky.
  apply (timed_lines_bounded now) in Hlines.
  destruct stdout as [|c stdout]; [done|]. cbn [nonempty negb orb].
  rewrite collect_nodes_events by done. eexists. split; [reflexivity|].
  intros k. rewrite foldl_insert_last, lookup_empty. by destruct (last _).
Qed.

Lemma extract_node_info_latest_witness :
  exists nodes,
    _extract_node_info_from_logs (Ok (Some "sky-7f3a-ops")) sky_two_log_lines
      (fun i => inject_Z (Z.of_nat i)) = Ok nodes /\
    forall k,
      nodes !! k
      = last (filter (fun node_info => node_id node_info = k)
                (events_of
                   (timed_lines (fun i => inject_Z (Z.of_nat i))
                      ("(worker8, rank=8, pid=2816, ip=172.31.41.250) Pulling image"
                         +:+ String newline
                       ("Docker daemon is running" +:+ String newline
                        "(worker8, rank=8, pid=2816, ip=172.31.41.250) Node is ready"))))).
Proof.
  apply (extract_node_info_latest "sky-7f3a-ops" _ "" sky_two_log_lines).
  - discriminate.
  - reflexivity.
  - discriminate.
  - apply (bool_decide_unpack _). vm_compute. reflexivity.
Defined.

(** The dict of those logs has one entry, with the message of the last
    line of the node. *)
Lemma two_log_lines_latest :
  match _extract_node_info_from_logs (Ok (Some "sky-7f3a-ops")) sky_two_log_lines
          (fun i => inject_Z (Z.of_nat i)) with
  | Ok nodes => Some (map_to_list (message <$> nodes))
  | Raise _ => None
  end
  = Some [("worker8-8", "Node is ready")].
Proof. vm_compute. reflexivity. Qed.

End NodeInfoFromLogs.

Section ClusterSection.
Import Manager.

(** ** The cluster section of [monitor_deployments] *)

Lemma clusters_found_before_header (pre rest : list string) :
  Forall (fun line => cluster_header line = false) pre ->
  clusters_found false (pre ++ rest) = clusters_found false rest.
Proof.
  induction 1 as [|line pre Hline _ IH]; [done|].
  simpl. by rewrite Hline.
Qed.

(** X15. Without a header line that shows the words NAME, INFRA and
    RESOURCES no cluster is found, whatever the other lines show: the
    command then reports that there are no active clusters. *)
Theorem clusters_found_needs_header (lines : list string) :
  Forall (fun line => cluster_header line = false) lines ->
  clusters_found false lines = [].
Proof.
  intros H. rewrite <- (app_nil_r lines). by rewrite clusters_found_before_header.
Qed.

Lemma clusters_found_needs_header_witness :
  clusters_found false (split_on newline status_without_infra) = [].
Proof.
  apply (clusters_found_needs_header (split_on newline status_without_infra)).
  apply (bool_decide_unpack _). vm_compute. reflexivity.
Defined.

Lemma clusters_found_body (body tail : list string) :
  Forall (fun line => cluster_header line = false /\
                      (nonempty (strip line) = true -> next_section line = false))
    body ->
  (tail = [] \/
   exists section post,
     tail = section :: post /\ cluster_header section = false /\
     nonempty (strip section) = true /\ next_section section = true) ->
  clusters_found true (body ++ tail)
  = map strip (List.filter (fun line => nonempty (strip line) && shows_status line) body).
Proof.
  intros Hbody Htail. induction Hbody as [|line body [Hh Hs] _ IH].
  - destruct Htail as [->|(section & post & -> & Hh & Hn & Hs)]; [done|].
    simpl. by rewrite Hh, Hn, Hs.
  - simpl. rewrite Hh. destruct (nonempty (strip line)); simpl; [|done].
    rewrite Hs by done. destruct (shows_status line); simpl; by rewrite IH.
Qed.

(** X16. The clusters found are the lines of the cluster table: when the
    status output has a header line, then lines that are blank or do not
    start another section, and then either its end or a line that starts
    the section of the managed jobs or of the services, the list holds,
    in order and without the whitespace around them, the lines of the table
    that are not blank and show a status word; what precedes the header and
    what follows the start of the next section is not looked at. *)
Theorem clusters_found_table (pre body tail : list string) (header : string) :
  Forall (fun line => cluster_header line = false) pre ->
  cluster_header header = true ->
  Forall (fun line => cluster_header line = false /\
                      (nonempty (strip line) = true -> next_section line = false))
    body ->
  (tail = [] \/
   exists section post,
     tail = section :: post /\ cluster_header section = false /\
     nonempty (strip section) = true /\ next_section section = true) ->
  clusters_found false (pre ++ header :: body ++ tail)
  = map strip (List.filter (fun line => nonempty (strip line) && shows_status line) body).
Proof.
  intros Hpre Hheader Hbody Htail.
  rewrite clusters_found_before_header by done.
  cbn [clusters_found]. rewrite Hheader. by apply clusters_found_body.
Qed.

Lemma clusters_found_table_witness :
  clusters_found false (split_on newline status_with_infra)
  = ["sky-7f3a-ops  AWS  1x(t3.medium)  INIT"; "sky-91bc-ops  AWS  1x(t3.medium)  UP"].
Proof.
  apply (clusters_found_table
           ["Clusters"]
           ["sky-7f3a-ops  AWS  1x(t3.medium)  INIT";
            "sky-91bc-ops  AWS  1x(t3.medium)  UP"; ""]
           ["Managed jobs"; "No in-progress managed jobs. UP next: none"]
           "NAME  INFRA  RESOURCES  STATUS").
  - apply (bool_decide_unpack _). vm_compute. reflexivity.
  - reflexivity.
  - constructor; [split; [reflexivity|intros _; reflexivity]|].
    constructor; [split; [reflexivity|intros _; reflexivity]|].
    constructor; [split; [reflexivity|discriminate]|constructor].
  - right. eexists _, _. split; [reflexivity|]. split; [reflexivity|]. split; reflexivity.
Defined.

End ClusterSection.
